(** * http-aws4: the command-line front end of a SigV4-signed HTTP request

    A shallow embedding of [src/http-aws4.js] (with the constants of its
    [package.json]) and the properties of its request construction,
    region/service inference, header parsing and response classification.

    Modelling conventions.
    - A JavaScript string is a [string] of code units below 256 (Latin-1).
      [toLowerCase] and the white space of [trimRight] are JavaScript's on
      that range; the regular-expression classes hold ASCII codes only, as
      in a non-unicode JavaScript regular expression.
    - A value that may be [null] or [undefined] is an [option].
    - A positional argument is a string, or a number when yargs reads it
      as one ([arg]).
    - A plain object used as a dictionary of string values is a
      [gmap string string]; an object whose key order is observed
      (the argument of [lowercaseKeys]) is the list of its entries in
      [Object.keys] order.
    - Code that can throw returns a [result]; the packages the script
      requires (normalize-url, aws-sdk, get-stdin, the transport) are
      variables of a section. *)

From Stdlib Require Import ZArith Lia Bool List Ascii String OrderedTypeEx.
From stdpp Require Import base option list strings gmap fin_maps sorting pretty.

Local Open Scope string_scope.
Local Open Scope list_scope.
Local Open Scope Z_scope.

(** ** Characters and strings *)

Module Js.

Definition code (a : ascii) : Z := Z.of_N (N_of_ascii a).

Definition in_range (lo hi a : ascii) : bool :=
  (code lo <=? code a) && (code a <=? code hi).

Definition is_upper (a : ascii) : bool := in_range "A" "Z" a.
Definition is_lower (a : ascii) : bool := in_range "a" "z" a.
Definition is_digit (a : ascii) : bool := in_range "0" "9" a.

(** The capital letters above the ASCII range: codes 192 to 222 but the
    multiplication sign. *)
Definition is_upper_latin1 (a : ascii) : bool :=
  (192 <=? code a) && (code a <=? 222) && negb (code a =? 215).

(** [String.prototype.toLowerCase], one code at a time; [toUpperCase] on
    the ASCII range, where the script and its patterns apply it. *)
Definition lower_char (a : ascii) : ascii :=
  if is_upper a || is_upper_latin1 a then ascii_of_N (N_of_ascii a + 32) else a.

Definition upper_char (a : ascii) : ascii :=
  if is_lower a then ascii_of_N (N_of_ascii a - 32) else a.

Fixpoint map_string (f : ascii -> ascii) (s : string) : string :=
  match s with
  | EmptyString => EmptyString
  | String a s' => String (f a) (map_string f s')
  end.

Definition toLowerCase (s : string) : string := map_string lower_char s.
Definition toUpperCase (s : string) : string := map_string upper_char s.

Fixpoint all_chars (p : ascii -> bool) (s : string) : bool :=
  match s with
  | EmptyString => true
  | String a s' => p a && all_chars p s'
  end.

(** [s.indexOf(c)] for a one-character needle: the first index, or [-1]. *)
Fixpoint indexOf (c : ascii) (s : string) : Z :=
  match s with
  | EmptyString => -1
  | String a s' =>
      if Ascii.eqb a c then 0
      else let i := indexOf c s' in if i <? 0 then -1 else i + 1
  end.

Fixpoint drop_string (n : nat) (s : string) : string :=
  match n, s with
  | O, _ => s
  | S n', String _ s' => drop_string n' s'
  | S _, EmptyString => EmptyString
  end.

Fixpoint take_string (n : nat) (s : string) : string :=
  match n, s with
  | S n', String a s' => String a (take_string n' s')
  | _, _ => EmptyString
  end.

(** [s.substr(start, length)]; [len = None] is the one-argument call.  A
    negative [start] counts from the end, a negative [length] is zero. *)
Definition substr (s : string) (start : Z) (len : option Z) : string :=
  let size := Z.of_nat (String.length s) in
  let from := if start <? 0 then Z.max (size + start) 0 else Z.min start size in
  let span :=
    match len with
    | None => size - from
    | Some l => Z.min (Z.max l 0) (size - from)
    end in
  take_string (Z.to_nat span) (drop_string (Z.to_nat from) s).

(** [ToString] of a possibly undefined string. *)
Definition to_string (v : option string) : string :=
  match v with
  | Some s => s
  | None => "undefined"
  end.

(** A positional argument as yargs hands it over: a string, or a number
    when the text reads as one; a number is kept by its [ToString] text. *)
Inductive arg : Type :=
| Str (s : string)
| Num (text : string).

Definition arg_text (v : arg) : string :=
  match v with
  | Str s => s
  | Num text => text
  end.

End Js.

(** ** Regular expressions

    The fragment of JavaScript's backtracking matcher that the script's
    literals use: literal text, a greedy [+] over a character class,
    sequence, alternation, the anchors and one capturing group. *)

Module Re.

Inductive regex : Type :=
| Lit (l : string)
| Plus (cls : ascii -> bool)
| Seq (r1 r2 : regex)
| Alt (r1 r2 : regex)
| Bol
| Eol
| Group (r : regex).

(** The classes of the script's literals. *)
Definition word (a : ascii) : bool :=
  Js.is_lower a || Js.is_upper a || Js.is_digit a || Ascii.eqb a "_".

Definition lower_digit_dash (a : ascii) : bool :=
  Js.is_lower a || Js.is_digit a || Ascii.eqb a "-".

(** Under the [i] flag two codes match when their canonical (upper-case)
    forms agree; a class matches a code when it has a member that does. *)
Definition chr_eq (icase : bool) (c a : ascii) : bool :=
  if icase then Ascii.eqb (Js.upper_char c) (Js.upper_char a) else Ascii.eqb c a.

Definition in_class (icase : bool) (cls : ascii -> bool) (a : ascii) : bool :=
  if icase then cls a || cls (Js.lower_char a) || cls (Js.upper_char a) else cls a.

Fixpoint lit_match (icase : bool) (l s : string) : option string :=
  match l with
  | EmptyString => Some s
  | String c l' =>
      match s with
      | String a s' => if chr_eq icase c a then lit_match icase l' s' else None
      | EmptyString => None
      end
  end.

(** Greedy [cls+]: take as many as possible, give one back at a time until
    the continuation accepts. *)
Fixpoint plus_match {A : Type} (cls : ascii -> bool) (s : string)
    (k : string -> option A) : option A :=
  match s with
  | String a s' =>
      if cls a then
        match plus_match cls s' k with
        | Some x => Some x
        | None => k s'
        end
      else None
  | EmptyString => None
  end.

Fixpoint rmatch {A : Type} (icase : bool) (input : string) (r : regex)
    (s : string) (cap : option string)
    (k : string -> option string -> option A) : option A :=
  match r with
  | Lit l =>
      match lit_match icase l s with
      | Some s' => k s' cap
      | None => None
      end
  | Plus cls => plus_match (in_class icase cls) s (fun s' => k s' cap)
  | Seq r1 r2 =>
      rmatch icase input r1 s cap (fun s' cap' => rmatch icase input r2 s' cap' k)
  | Alt r1 r2 =>
      match rmatch icase input r1 s cap k with
      | Some x => Some x
      | None => rmatch icase input r2 s cap k
      end
  | Bol => if (String.length s =? String.length input)%nat then k s cap else None
  | Eol =>
      match s with
      | EmptyString => k s cap
      | String _ _ => None
      end
  | Group r1 =>
      rmatch icase input r1 s cap
        (fun s' _ =>
           k s' (Some (Js.take_string (String.length s - String.length s') s)))
  end.

(** [re.exec(input)]: the leftmost start at which the pattern matches.
    [None] is JavaScript's [null]; otherwise the result is element [1] of
    the match array (the text of the group, [None] when it took no part). *)
Fixpoint exec_from (icase : bool) (input : string) (r : regex) (s : string)
    : option (option string) :=
  match rmatch icase input r s None (fun _ cap => Some cap) with
  | Some cap => Some cap
  | None =>
      match s with
      | EmptyString => None
      | String _ s' => exec_from icase input r s'
      end
  end.

Definition exec (icase : bool) (r : regex) (input : string) : option (option string) :=
  exec_from icase input r input.

Definition test (icase : bool) (r : regex) (input : string) : bool :=
  match exec icase r input with
  | Some _ => true
  | None => false
  end.

End Re.

(** ** Values, exceptions and objects *)

(** The response summary built by [handleResponse]. *)
Record metadata : Type := Metadata {
  statusCode : Z;
  statusMessage : string;
  resp_headers : gmap string string;
  resp_body : string
}.

(** A thrown value: an [Error] object with its [name] and the [response]
    property that [handleResponse] may attach. *)
Record js_error : Type := JsError {
  err_name : string;
  err_response : option metadata
}.

Inductive result (A : Type) : Type :=
| Return (a : A)
| Throw (e : js_error).

Arguments Return {A} a.
Arguments Throw {A} e.

#[global] Instance result_ret : MRet result := @Return.
#[global] Instance result_bind : MBind result :=
  fun A B f c =>
    match c with
    | Return a => f a
    | Throw e => Throw e
    end.

(** Reading a property of [null] or [undefined]. *)
Definition type_error : js_error :=
  {| err_name := "TypeError"; err_response := None |}.

(** [obj[k] = v] on a plain object holding strings.  The key [__proto__] is
    the accessor inherited from [Object.prototype]: assigning a string to it
    creates no property. *)
Definition set_prop (k v : string) (obj : gmap string string) : gmap string string :=
  if decide (k = "__proto__") then obj else <[k:=v]> obj.

(** [Object.assign(target, source)]: every own property of the source is
    assigned on the target. *)
Definition assign (target source : gmap string string) : gmap string string :=
  map_fold set_prop target source.

(** [lowercaseKeys(obj)], over the entries of [obj] in key order:
    [ret[key.toLowerCase()] = obj[key]]. *)
Definition lowercaseKeys (obj : list (string * string)) : gmap string string :=
  foldl (fun ret kv => set_prop (Js.toLowerCase kv.1) kv.2 ret) ∅ obj.

(** ** The script *)

(** [package.json] *)
Module pkg.
Definition name : string := "http-aws4".
Definition version : string := "0.7.0".
Definition repository : string := "timdp/http-aws4".
End pkg.

Definition USER_AGENT : string :=
  pkg.name +:+ "/" +:+ pkg.version +:+ " (https://github.com/" +:+ pkg.repository +:+ ")".

(** The options object that yargs hands over; [argv_positional] is [argv._]. *)
Record argv : Type := Argv {
  argv_print : string;
  argv_pretty : string;
  argv_region : option string;
  argv_profile : option string;
  argv_service : option string;
  argv_positional : list Js.arg
}.

Declare Scope regex_scope.
Delimit Scope regex_scope with re.
Bind Scope regex_scope with Re.regex.
Infix "⋅" := Re.Seq (at level 41, right associativity) : regex_scope.
Infix "∣" := Re.Alt (at level 42, right associativity) : regex_scope.

(** [/^\w+$/] *)
Definition word_re : Re.regex :=
  (Re.Bol ⋅ Re.Plus Re.word ⋅ Re.Eol)%re.

(** [(?:\/|:|$)] *)
Definition host_end : Re.regex :=
  (Re.Lit "/" ∣ Re.Lit ":" ∣ Re.Eol)%re.

(** [/([a-z0-9-]+)\.\w+\.amazonaws\.com(?:\/|:|$)/i] *)
Definition region_re : Re.regex :=
  (Re.Group (Re.Plus Re.lower_digit_dash) ⋅ Re.Lit "." ⋅ Re.Plus Re.word
     ⋅ Re.Lit ".amazonaws.com" ⋅ host_end)%re.

(** [/(\w+)\.amazonaws\.com(?:\/|:|$)/i] *)
Definition service_re : Re.regex :=
  (Re.Group (Re.Plus Re.word) ⋅ Re.Lit ".amazonaws.com" ⋅ host_end)%re.

(** [args.shift()] *)
Definition shift (args : list Js.arg) : option Js.arg * list Js.arg :=
  match args with
  | [] => (None, [])
  | a :: rest => (Some a, rest)
  end.

(** Lines 72-78: the method and the raw URL, and the arguments left over. *)
Definition parse_method_url (args : list Js.arg)
    : result (string * option Js.arg * list Js.arg) :=
  if Re.test false word_re (Js.to_string (Js.arg_text <$> head args)) then
    match shift args with
    | (None, _) => Throw type_error
    | (Some (Js.Num _), _) => Throw type_error
    | (Some (Js.Str m), args1) =>
        let '(url, args2) := shift args1 in
        Return (Js.toUpperCase m, url, args2)
    end
  else
    let '(url, args1) := shift args in
    Return ("GET", url, args1).

(** [re.exec(url)[1]] *)
Definition exec_group1 (re : Re.regex) (url : string) : result (option string) :=
  match Re.exec true re url with
  | None => Throw type_error
  | Some g => Return g
  end.

(** Lines 85-88. *)
Definition resolve_region (override : option string) (url : string)
    : result (option string) :=
  match override with
  | Some r => Return (Some r)
  | None => exec_group1 region_re url
  end.

(** Lines 90-93. *)
Definition resolve_service (override : option string) (url : string)
    : result (option string) :=
  match override with
  | Some s => Return (Some s)
  | None => exec_group1 service_re url
  end.

(** Lines 98-99: the name and the value in a header argument that is a
    string. *)
Definition header_entry (arg : string) : string * string :=
  let pos := Js.indexOf ":" arg in
  (Js.toLowerCase (Js.substr arg 0 (Some pos)), Js.substr arg (pos + 1) None).

Definition add_header (headers : gmap string string) (arg : string)
    : gmap string string :=
  set_prop (header_entry arg).1 (header_entry arg).2 headers.

(** Lines 95-100 over arguments that are all strings. *)
Definition parse_headers (args : list string) : gmap string string :=
  foldl add_header ∅ args.

(** Lines 96-100: the loop over the remaining arguments; [arg.indexOf] is
    not a function when the argument is a number. *)
Fixpoint header_loop (headers : gmap string string) (args : list Js.arg)
    : result (gmap string string) :=
  match args with
  | [] => Return headers
  | Js.Str s :: rest => header_loop (add_header headers s) rest
  | Js.Num _ :: _ => Throw type_error
  end.

(** Lines 185-189: the header mapping of the request, from the headers the
    SDK puts on a fresh [HttpRequest], the parsed header arguments and
    [endpoint.host]. *)
Definition request_headers (sdk_headers : list (string * string))
    (headers : gmap string string) (endpoint_host : string) : gmap string string :=
  assign
    (assign
       (assign (lowercaseKeys sdk_headers) {[ "user-agent" := USER_AGENT ]})
       headers)
    {[ "host" := endpoint_host ]}.

(** *** Requests, responses and promises *)

Record endpoint : Type := Endpoint {
  ep_host : string;
  ep_href : string
}.

Record credentials : Type := Credentials {
  accessKeyId : string;
  secretAccessKey : string;
  sessionToken : option string
}.

Record request : Type := Request {
  req_endpoint : endpoint;
  req_region : option string;
  req_method : string;
  req_body : string;
  req_headers : gmap string string
}.

(** What the transport's response object emits after it is handed over. *)
Inductive stream_event : Type :=
| Data (chunk : string)
| End
| StreamError (e : js_error).

Record response : Type := Response {
  res_statusCode : Z;
  res_statusMessage : string;
  res_headers : gmap string string;
  res_events : list stream_event
}.

(** A promise: still pending ([None]), resolved or rejected. *)
Definition promise (A : Type) : Type := option (result A).

(** [resolve] and [reject] only act on a pending promise. *)
Definition settle {A : Type} (p : promise A) (r : result A) : promise A :=
  match p with
  | None => Some r
  | Some _ => p
  end.

(** [Promise.all([p1, p2])]; [first] tells which of two rejections came first. *)
Definition promise_all {A B : Type} (first : bool) (p1 : promise A) (p2 : promise B)
    : promise (A * B) :=
  match p1, p2 with
  | Some (Throw e1), Some (Throw e2) => Some (Throw (if first then e1 else e2))
  | Some (Throw e1), _ => Some (Throw e1)
  | _, Some (Throw e2) => Some (Throw e2)
  | Some (Return a), Some (Return b) => Some (Return (a, b))
  | _, _ => None
  end.

Definition http_error (m : metadata) : js_error :=
  {| err_name := "Error"; err_response := Some m |}.

(** How the promise of [handleResponse] was settled.  [resolve(metadata)]
    and [error.response = metadata] hold the object that the [data]
    listener goes on appending to, not a copy of it. *)
Inductive settlement : Type :=
| Resolved
| RejectedWithResponse
| Rejected (e : js_error).

(** Lines 208-229: the [metadata] object shared by the listeners, and the
    state of the promise. *)
Record listening : Type := Listening {
  ls_metadata : metadata;
  ls_promise : option settlement
}.

(** [resolve] and [reject] of the handler: the first call wins. *)
Definition settle_with (p : option settlement) (x : settlement) : option settlement :=
  match p with
  | None => Some x
  | Some _ => p
  end.

Definition on_event (st : listening) (ev : stream_event) : listening :=
  let m := ls_metadata st in
  match ev with
  | Data data =>
      {| ls_metadata :=
           Metadata (statusCode m) (statusMessage m) (resp_headers m)
                    (resp_body m +:+ data);
         ls_promise := ls_promise st |}
  | End =>
      {| ls_metadata := m;
         ls_promise :=
           if (statusCode m <? 200) || (statusCode m >=? 300)
           then settle_with (ls_promise st) RejectedWithResponse
           else settle_with (ls_promise st) Resolved |}
  | StreamError e =>
      {| ls_metadata := m; ls_promise := settle_with (ls_promise st) (Rejected e) |}
  end.

(** The promise once the events of the response have been delivered; its
    value is [metadata] as it then stands. *)
Definition handleResponse (res : response) : promise metadata :=
  let st :=
    foldl on_event
      {| ls_metadata :=
           Metadata (res_statusCode res) (res_statusMessage res) (res_headers res) "";
         ls_promise := None |}
      (res_events res) in
  match ls_promise st with
  | None => None
  | Some Resolved => Some (Return (ls_metadata st))
  | Some RejectedWithResponse => Some (Throw (http_error (ls_metadata st)))
  | Some (Rejected e) => Some (Throw e)
  end.

(** The chunks of a body, put together. *)
Definition whole_body (chunks : list string) : string :=
  foldr String.append "" chunks.

(** *** What the process does to the outside *)

Inductive level : Type := log | info | warn | error.

Inductive effect : Type :=
| EchoHead (r : request)
| EchoBody (body : string)
| Send (r : request)
| FormatResponse (resp : metadata) (type : level)
| LogStack (e : js_error).

Inductive exit : Type :=
| Completed
| Exit (status : Z)
| Uncaught (e : js_error)
| Pending.

(** A step of the promise chain: what it did and how its promise stands. *)
Definition task (A : Type) : Type := list effect * promise A.

Definition settled {A : Type} (r : result A) : task A := ([], Some r).

(** [p.then(f)] *)
Definition and_then {A B : Type} (t : task A) (f : A -> task B) : task B :=
  match t with
  | (fx, Some (Return a)) => (fx ++ (f a).1, (f a).2)
  | (fx, Some (Throw e)) => (fx, Some (Throw e))
  | (fx, None) => (fx, None)
  end.

(** Lines 169-176. *)
Definition handleError (err : js_error) : list effect * exit :=
  (match err_response err with
   | Some resp => [FormatResponse resp error]
   | None => [LogStack err]
   end, Exit 1).

(** [p.catch(handleError)], and what becomes of the process. *)
Definition catch_handleError (t : task unit) : list effect * exit :=
  match t with
  | (fx, Some (Return _)) => (fx, Completed)
  | (fx, Some (Throw e)) => (fx ++ (handleError e).1, (handleError e).2)
  | (fx, None) => (fx, Pending)
  end.

(** [~s.indexOf(c)] as a condition. *)
Definition has_flag (c : ascii) (s : string) : bool :=
  negb (Js.indexOf c s =? -1).

Record config : Type := Config {
  cfg_method : string;
  cfg_url : string;
  cfg_region : option string;
  cfg_service : option string;
  cfg_headers : gmap string string
}.

Section Script.

(** The packages the script calls. *)
Variable normalizeUrl : option Js.arg -> result string.
Variable new_Endpoint : string -> result endpoint.
Variable HttpRequest_headers : endpoint -> list (string * string).
Variable addAuthorization :
  request -> option string -> credentials -> Z -> result request.
Variable now : Z.
Variable getStdin : promise string.
Variable config_getCredentials : option string -> promise credentials.
Variable SharedIniFileCredentials : string -> result credentials.
Variable client_handleRequest : request -> promise response.
Variable stdin_rejects_first : bool.

(** Lines 69-100: everything that runs before the promise chain. *)
Definition startup (a : argv) : result config :=
  '(method, url, rest) ← parse_method_url (argv_positional a);
  url ← normalizeUrl url;
  region ← resolve_region (argv_region a) url;
  service ← resolve_service (argv_service a) url;
  headers ← header_loop ∅ rest;
  mret (Config method url region service headers).

(** Lines 178-193. *)
Definition createRequest (cfg : config) (body : string) (creds : credentials)
    : result request :=
  endpoint ← new_Endpoint (cfg_url cfg);
  addAuthorization
    {| req_endpoint := endpoint;
       req_region := cfg_region cfg;
       req_method := cfg_method cfg;
       req_body := body;
       req_headers :=
         request_headers (HttpRequest_headers endpoint) (cfg_headers cfg)
                         (ep_host endpoint) |}
    (cfg_service cfg) creds now.

(** Lines 195-206. *)
Definition handleRequest (a : argv) (r : request) (body : string) : task response :=
  ((if has_flag "H" (argv_print a) then [EchoHead r] else [])
     ++ (if has_flag "B" (argv_print a) then [EchoBody body] else [])
     ++ [Send r],
   client_handleRequest r).

(** Lines 231-233; the call on the [--profile] path constructs the
    credentials at once. *)
Definition getCredentials (a : argv) (cfg : config) : result (promise credentials) :=
  match argv_profile a with
  | Some (String c p) =>
      creds ← SharedIniFileCredentials (String c p);
      mret (Some (Return creds))
  | _ => mret (config_getCredentials (cfg_region cfg))
  end.

(** Lines 235-242. *)
Definition chain (a : argv) (cfg : config) (creds : promise credentials)
    : list effect * exit :=
  catch_handleError
    (and_then
       (and_then
          (and_then
             ([], promise_all stdin_rejects_first getStdin creds)
             (fun bc =>
                match createRequest cfg bc.1 bc.2 with
                | Return r => handleRequest a r bc.1
                | Throw e => settled (Throw e)
                end))
          (fun res => ([], handleResponse res)))
       (fun m => ([FormatResponse m info], Some (Return tt)))).

Definition main (a : argv) : list effect * exit :=
  match startup a with
  | Throw e => ([], Uncaught e)
  | Return cfg =>
      match getCredentials a cfg with
      | Throw e => ([], Uncaught e)
      | Return creds => chain a cfg creds
      end
  end.

(** The failures that precede signing. *)
Inductive upstream_failure (a : argv) : Prop :=
| startup_throws e :
    startup a = Throw e -> upstream_failure a
| credentials_throw cfg e :
    startup a = Return cfg -> getCredentials a cfg = Throw e -> upstream_failure a
| credentials_rejected cfg e :
    startup a = Return cfg -> getCredentials a cfg = Return (Some (Throw e)) ->
    upstream_failure a
| endpoint_throws cfg e :
    startup a = Return cfg -> new_Endpoint (cfg_url cfg) = Throw e ->
    upstream_failure a.

End Script.

(** * Vocabulary of the properties *)

(** Any code but a capital letter. *)
Definition no_upper (a : ascii) : bool :=
  negb (Js.is_upper a || Js.is_upper_latin1 a).

(** A name is lowercase when it holds no capital letter. *)
Definition lowercase (s : string) : Prop := Js.all_chars no_upper s = true.

(** [A-Z0-9_]: what [\w] leaves once the letters are upper case. *)
Definition upper_word (a : ascii) : bool :=
  Js.is_upper a || Js.is_digit a || Ascii.eqb a "_".

(** A method token: one or more of [A-Z0-9_]. *)
Definition uppercase_token (s : string) : Prop :=
  s <> "" /\ Js.all_chars upper_word s = true.

(** The characters of [s] other than [c]. *)
Definition free_of (c : ascii) (s : string) : Prop :=
  Js.all_chars (fun a => negb (Ascii.eqb a c)) s = true.

(** A non-empty run of word characters: what [/^\w+$/] accepts. *)
Definition word_token (s : string) : bool :=
  negb (String.eqb s "") && Js.all_chars Re.word s.

(** Where [(?:\/|:|$)] matches. *)
Definition at_host_end (s : string) : bool :=
  match s with
  | EmptyString => true
  | String a _ => Ascii.eqb a "/" || Ascii.eqb a ":"
  end.

(** [[a-z0-9-]] under the [i] flag. *)
Definition region_char (a : ascii) : bool :=
  Js.is_lower a || Js.is_upper a || Js.is_digit a || Ascii.eqb a "-".

(** The literal text of both host patterns. *)
Definition dot_amazonaws_com : string := ".amazonaws.com".

(** After the group of either pattern: the suffix, then the host's end. *)
Definition suffix_then_end (g : string) (s : string) : option (option string) :=
  match Re.lit_match true dot_amazonaws_com s with
  | Some s' => if at_host_end s' then Some (Some g) else None
  | None => None
  end.

(** The text between the start [t] of a match and what is left, [s]. *)
Definition consumed (t s : string) : string :=
  Js.take_string (String.length t - String.length s) t.

(** A string does not end in a character of the class. *)
Definition not_ending_in (cls : ascii -> bool) (pre : string) : Prop :=
  forall pre' a, pre = pre' +:+ String a "" -> cls a = false.

(** The shape of a URL in which [region_re] has a match. *)
Definition has_region_pattern (url : string) : Prop :=
  exists pre name label suffix rest,
    url = pre +:+ name +:+ "." +:+ label +:+ suffix +:+ rest /\
    name <> "" /\ Js.all_chars region_char name = true /\
    word_token label = true /\
    Js.toLowerCase suffix = dot_amazonaws_com /\ at_host_end rest = true.

(** The shape of a URL in which [service_re] has a match. *)
Definition has_service_pattern (url : string) : Prop :=
  exists pre name suffix rest,
    url = pre +:+ name +:+ suffix +:+ rest /\
    word_token name = true /\
    Js.toLowerCase suffix = dot_amazonaws_com /\ at_host_end rest = true.

(** Stand-ins for the packages, to run the script on examples. *)
Module Sample.

Definition normalizeUrl (url : option Js.arg) : result string :=
  match url with
  | Some (Js.Str u) => Return u
  | _ => Throw type_error
  end.

Definition new_Endpoint (url : string) : result endpoint :=
  let authority := Js.substr url (Js.indexOf ":" url + 3) None in
  let stop := Js.indexOf "/" authority in
  Return {| ep_host := if stop <? 0 then authority
                       else Js.substr authority 0 (Some stop);
            ep_href := url |}.

Definition HttpRequest_headers (_ : endpoint) : list (string * string) :=
  [("User-Agent", "aws-sdk-nodejs/2.32.0")].

Definition addAuthorization (r : request) (_ : option string) (_ : credentials)
    (_ : Z) : result request :=
  Return r.

Definition keys : credentials :=
  {| accessKeyId := "AKIDEXAMPLE"; secretAccessKey := "secret"; sessionToken := None |}.

Definition getCredentials (_ : option string) : promise credentials :=
  Some (Return keys).

Definition noCredentials (_ : option string) : promise credentials :=
  Some (Throw {| err_name := "CredentialsError"; err_response := None |}).

Definition SharedIniFileCredentials (_ : string) : result credentials :=
  Return keys.

Definition client (_ : request) : promise response :=
  Some (Return (Response 200 "OK" ∅ [Data "{}"; End])).

Definition main (creds : option string -> promise credentials) (a : argv)
    : list effect * exit :=
  main normalizeUrl new_Endpoint HttpRequest_headers addAuthorization 0
       (Some (Return "")) creds SharedIniFileCredentials client false a.

End Sample.

(** * The printing side of the script *)

(** Further built-ins. *)
Module Lib.

(** The white space and line terminators below code 256: tab to carriage
    return, the space and the no-break space. *)
Definition is_space (a : ascii) : bool :=
  ((9 <=? Js.code a) && (Js.code a <=? 13)) || (Js.code a =? 32)
  || (Js.code a =? 160).

(** [String.prototype.trimRight] *)
Fixpoint trimRight (s : string) : string :=
  match s with
  | EmptyString => EmptyString
  | String a s' =>
      match trimRight s' with
      | EmptyString => if is_space a then EmptyString else String a EmptyString
      | String b t => String a (String b t)
      end
  end.

(** The order of [Array.prototype.sort] without a comparator: strings by
    their codes, position by position. *)
Definition code_le (s t : string) : Prop := String.leb s t = true.

#[global] Instance code_le_dec : RelDecision code_le.
Proof. intros s t. unfold code_le. apply _. Defined.

Definition sort (l : list string) : list string := merge_sort code_le l.

(** An integer (a status code) inside a template literal. *)
Definition number_to_string (n : Z) : string := pretty n.

End Lib.

(** Patterns with a word boundary: a sequence of literal texts, [^] and
    [\b], matched with the code before the current position at hand. *)
Module Rb.

Inductive atom : Type :=
| Lit (l : string)
| Bol
| WordBoundary.

Definition is_word (c : option ascii) : bool :=
  match c with
  | Some a => Re.word a
  | None => false
  end.

Definition next_code (s : string) : option ascii :=
  match s with
  | EmptyString => None
  | String a _ => Some a
  end.

(** The code before the position reached by matching the literal [l]. *)
Fixpoint last_code (prev : option ascii) (l : string) : option ascii :=
  match l with
  | EmptyString => prev
  | String c l' => last_code (Some c) l'
  end.

Fixpoint match_here (p : list atom) (prev : option ascii) (s : string) : bool :=
  match p with
  | [] => true
  | Lit l :: p' =>
      match Re.lit_match false l s with
      | Some s' => match_here p' (last_code prev l) s'
      | None => false
      end
  | Bol :: p' =>
      match prev with
      | None => match_here p' prev s
      | Some _ => false
      end
  | WordBoundary :: p' =>
      xorb (is_word prev) (is_word (next_code s)) && match_here p' prev s
  end.

Fixpoint test_from (p : list atom) (prev : option ascii) (s : string) : bool :=
  match_here p prev s ||
  match s with
  | EmptyString => false
  | String a s' => test_from p (Some a) s'
  end.

(** [re.test(s)] *)
Definition test (p : list atom) (s : string) : bool := test_from p None s.

End Rb.

(** [/^[HBhb]+$/] *)
Definition print_flag (a : ascii) : bool :=
  Ascii.eqb a "H" || Ascii.eqb a "B" || Ascii.eqb a "h" || Ascii.eqb a "b".

Definition print_re : Re.regex :=
  (Re.Bol ⋅ Re.Plus print_flag ⋅ Re.Eol)%re.

(** Lines 34-39: the check yargs runs on the [--print] value. *)
Definition coerce_print (val : string) : result string :=
  if negb (Re.test false print_re val)
  then Throw {| err_name := "Error"; err_response := None |}
  else Return val.

(** [/\bjson\b/] *)
Definition json_re : list Rb.atom :=
  [Rb.WordBoundary; Rb.Lit "json"; Rb.WordBoundary].

(** [/^text\/plain\b/] *)
Definition text_plain_re : list Rb.atom :=
  [Rb.Bol; Rb.Lit "text/plain"; Rb.WordBoundary].

(** One call of a method of [console]. *)
Inductive console_call : Type :=
| Console (fn : level) (args : list string).

(** Lines 16-21: [CONSOLE_COLORS], as the colour of each method. *)
Definition color (fn : level) : string :=
  match fn with
  | log => "blue"
  | info => "green"
  | warn => "yellow"
  | error => "red"
  end.

Section Printing.

(** [chalk[style](text)], [JSON.stringify(JSON.parse(code), null, 2)],
    [emphasize.highlightAuto(code).value], [err.stack] and [cleanStack]. *)
Variable chalk : string -> string -> string.
Variable json_reformat : string -> result string.
Variable highlightAuto : string -> result string.
Variable stack : js_error -> string.
Variable cleanStack : string -> string.

(** Lines 105-114: [logger[fn](...args)] and [logger[fn].bare(...args)]. *)
Definition logger (fn : level) (args : list string) : console_call :=
  Console fn (map (chalk (color fn)) args).

Definition logger_bare (fn : level) (args : list string) : console_call :=
  Console fn args.

(** Lines 116-120. *)
Definition formatHeaders (headers : gmap string string) (type : level)
    : list console_call :=
  map (fun name =>
         logger type [name +:+ ": " +:+ Js.to_string (headers !! name)])
      (Lib.sort (map_to_list headers).*1).

(** Lines 122-129.  [resp.headers] is an object in every summary the
    script builds, so the test on it holds; a missing [content-type] reaches
    the pattern as the text [undefined]. *)
Definition indent (code : string) (resp : metadata) : string :=
  if Rb.test json_re (Js.to_string (resp_headers resp !! "content-type")) then
    match json_reformat code with
    | Return out => out
    | Throw _ => code
    end
  else code.

(** Lines 131-139. *)
Definition highlight (code : string) (resp : metadata) : string :=
  if negb (Rb.test text_plain_re (Js.to_string (resp_headers resp !! "content-type")))
  then
    match highlightAuto code with
    | Return out => out
    | Throw _ => code
    end
  else code.

(** Lines 141-167. *)
Definition formatResponse (a : argv) (resp : metadata) (type : level)
    : list console_call :=
  (if has_flag "h" (argv_print a) then
     logger type
       [chalk "bold"
          (Lib.number_to_string (statusCode resp) +:+ " " +:+ statusMessage resp)]
     :: formatHeaders (resp_headers resp) type ++ [logger type []]
   else [])
  ++
  (if has_flag "b" (argv_print a) then
     if (String.length (resp_body resp) =? 0)%nat then [logger type [""]]
     else if String.eqb (argv_pretty a) "none" then [logger type [resp_body resp]]
     else
       let transforms :=
         (if String.eqb (argv_pretty a) "all" || String.eqb (argv_pretty a) "format"
          then [indent] else [])
         ++
         (if String.eqb (argv_pretty a) "all" || String.eqb (argv_pretty a) "colors"
          then [highlight] else []) in
       [logger_bare type
          [foldl (fun prev transform => transform prev resp) (resp_body resp)
                 transforms]]
   else []).

(** What each step of the run writes to the console: the request echo of
    [handleRequest] (lines 196-204), [formatResponse], and the stack that
    [handleError] logs (line 173). *)
Definition render (a : argv) (e : effect) : list console_call :=
  match e with
  | EchoHead r =>
      logger log [chalk "bold" (req_method r +:+ " " +:+ ep_href (req_endpoint r))]
      :: formatHeaders (req_headers r) log ++ [logger log []]
  | EchoBody body => [logger log [Lib.trimRight body]; logger log []]
  | Send _ => []
  | FormatResponse resp type => formatResponse a resp type
  | LogStack e => [logger error [cleanStack (stack e)]]
  end.

Definition console_output (a : argv) (trace : list effect) : list console_call :=
  flat_map (render a) trace.

End Printing.

(** The chunks that a list of events still brings. *)
Fixpoint later_data (evs : list stream_event) : string :=
  match evs with
  | [] => ""
  | Data d :: rest => d +:+ later_data rest
  | _ :: rest => later_data rest
  end.

(** What holds of the listeners' state after any events. *)
Definition listening_inv (res : response) (seen : list stream_event) (st : listening)
    : Prop :=
  statusCode (ls_metadata st) = res_statusCode res /\
  statusMessage (ls_metadata st) = res_statusMessage res /\
  resp_headers (ls_metadata st) = res_headers res /\
  match ls_promise st with
  | None => True
  | Some Resolved => 200 <= res_statusCode res < 300 /\ End ∈ seen
  | Some RejectedWithResponse =>
      (res_statusCode res < 200 \/ 300 <= res_statusCode res) /\ End ∈ seen
  | Some (Rejected e) => StreamError e ∈ seen
  end.

(** The echo of the request that precedes its dispatch (lines 196-204). *)
Definition request_echo (a : argv) (r : request) (body : string) : list effect :=
  (if has_flag "H" (argv_print a) then [EchoHead r] else [])
  ++ (if has_flag "B" (argv_print a) then [EchoBody body] else []).

(** Whether a step hands a request to the transport. *)
Definition is_send (e : effect) : bool :=
  match e with
  | Send _ => true
  | _ => false
  end.

(** The method of [console] that a call goes to. *)
Definition console_fn (c : console_call) : level :=
  match c with
  | Console fn _ => fn
  end.

(** [word] occurs in [s] as a whole word: no word character right before
    it nor right after it. *)
Definition has_word (word s : string) : Prop :=
  exists pre post,
    s = pre +:+ word +:+ post /\
    Rb.is_word (Rb.last_code None pre) = false /\
    Rb.is_word (Rb.next_code post) = false.

(** [s] begins with [word], and no word character follows it. *)
Definition begins_with_word (word s : string) : Prop :=
  exists post, s = word +:+ post /\ Rb.is_word (Rb.next_code post) = false.

(** The value of the [content-type] header, as the patterns see it. *)
Definition content_type (resp : metadata) : string :=
  Js.to_string (resp_headers resp !! "content-type").

(** Stand-ins for the printing packages. *)
Module SamplePrint.

Definition chalk (style text : string) : string :=
  "<" +:+ style +:+ ">" +:+ text +:+ "</" +:+ style +:+ ">".

Definition json_reformat (code : string) : result string :=
  if String.eqb code "{}" then Return "{ }"
  else Throw {| err_name := "SyntaxError"; err_response := None |}.

Definition highlightAuto (code : string) : result string :=
  Return ("*" +:+ code +:+ "*").

End SamplePrint.

(** Modelled from the spec: the signer of aws-sdk, which is not under
    [src/].  Signing inserts the date header, the security token when there
    is one, and the authorization header (spec, 4.4); the SDK writes them
    under the names below and leaves every other header alone. *)
Definition signer_headers : list string :=
  ["X-Amz-Date"; "x-amz-security-token"; "Authorization"].

Definition signer_adds_only
    (addAuthorization : request -> option string -> credentials -> Z -> result request)
    : Prop :=
  forall request service creds now r,
    addAuthorization request service creds now = Return r ->
    forall k, k ∉ signer_headers -> req_headers r !! k = req_headers request !! k.

(** A stand-in for that signer. *)
Module SampleSdk.

Definition addAuthorization (r : request) (_ : option string) (creds : credentials)
    (_ : Z) : result request :=
  Return
    {| req_endpoint := req_endpoint r;
       req_region := req_region r;
       req_method := req_method r;
       req_body := req_body r;
       req_headers :=
         <["Authorization" := "AWS4-HMAC-SHA256 Credential=" +:+ accessKeyId creds]>
           (<["X-Amz-Date" := "20150830T123600Z"]> (req_headers r)) |}.

Definition config : config :=
  Config "GET" "https://search-movies.us-east-1.es.amazonaws.com/_search"
         (Some "us-east-1") (Some "es")
         (parse_headers ["Accept:*/*"; "User-Agent:curl/8.0"]).

Definition created : result request :=
  createRequest
    (fun url => Return (Endpoint "search-movies.us-east-1.es.amazonaws.com" url))
    (fun _ => [("User-Agent", "aws-sdk-nodejs/2.32.0")])
    addAuthorization 0 config ""
    (Credentials "AKIDEXAMPLE" "secret" None).

End SampleSdk.

(** * Properties *)

(** ** Characters and strings *)

Ltac each_code a :=
  destruct a as [[] [] [] [] [] [] [] []]; vm_compute; try reflexivity; try congruence.

Lemma lower_char_no_upper a : no_upper (Js.lower_char a) = true.
Proof. each_code a. Qed.

Lemma upper_char_word a : Re.word a = true -> upper_word (Js.upper_char a) = true.
Proof. each_code a. Qed.

Lemma all_chars_map p f s :
  (forall a, p (f a) = true) -> Js.all_chars p (Js.map_string f s) = true.
Proof.
  intros Hf. induction s as [|a s IH]; simpl; [reflexivity|].
  rewrite Hf, IH. reflexivity.
Qed.

Lemma toLowerCase_lowercase s : lowercase (Js.toLowerCase s).
Proof. apply all_chars_map, lower_char_no_upper. Qed.

Lemma all_chars_app p s t :
  Js.all_chars p (s +:+ t) = Js.all_chars p s && Js.all_chars p t.
Proof.
  induction s as [|a s IH]; simpl; [reflexivity|].
  rewrite IH. apply andb_assoc.
Qed.

Lemma toUpperCase_word s :
  Js.all_chars Re.word s = true -> Js.all_chars upper_word (Js.toUpperCase s) = true.
Proof.
  induction s as [|a s IH]; simpl; [reflexivity|].
  intros [Ha Hs]%andb_true_iff.
  rewrite (upper_char_word a Ha). simpl. apply IH, Hs.
Qed.

Lemma take_string_app s t : Js.take_string (String.length s) (s +:+ t) = s.
Proof. induction s as [|a s IH]; simpl; [destruct t; reflexivity | rewrite IH; reflexivity]. Qed.

Lemma drop_string_app s t : Js.drop_string (String.length s) (s +:+ t) = t.
Proof. induction s as [|a s IH]; simpl; [reflexivity | apply IH]. Qed.

Lemma take_string_all s : Js.take_string (String.length s) s = s.
Proof. induction s as [|a s IH]; simpl; [reflexivity | rewrite IH; reflexivity]. Qed.

Lemma length_app_string s t :
  String.length (s +:+ t) = (String.length s + String.length t)%nat.
Proof. induction s as [|a s IH]; simpl; [reflexivity | rewrite IH; reflexivity]. Qed.

Lemma indexOf_free c s : free_of c s -> Js.indexOf c s = -1.
Proof.
  unfold free_of. induction s as [|a s IH]; simpl; [reflexivity|].
  intros [Ha Hs]%andb_true_iff. apply negb_true_iff in Ha. rewrite Ha.
  rewrite (IH Hs). reflexivity.
Qed.

Lemma indexOf_first c s t :
  free_of c s -> Js.indexOf c (s +:+ String c t) = Z.of_nat (String.length s).
Proof.
  unfold free_of. induction s as [|a s IH]; simpl.
  - intros _. rewrite Ascii.eqb_refl. reflexivity.
  - intros [Ha Hs]%andb_true_iff. apply negb_true_iff in Ha. rewrite Ha.
    rewrite (IH Hs). destruct (Z.ltb_spec (Z.of_nat (String.length s)) 0); lia.
Qed.

Lemma substr_whole s : Js.substr s 0 None = s.
Proof.
  unfold Js.substr. simpl.
  rewrite (Z.min_l 0) by lia. simpl. rewrite Z.sub_0_r, Nat2Z.id.
  apply take_string_all.
Qed.

Lemma substr_negative_length s : Js.substr s 0 (Some (-1)) = "".
Proof.
  unfold Js.substr. simpl. rewrite (Z.min_l 0) by lia. reflexivity.
Qed.

Lemma substr_prefix s t :
  Js.substr (s +:+ t) 0 (Some (Z.of_nat (String.length s))) = s.
Proof.
  unfold Js.substr. simpl. rewrite (Z.min_l 0) by lia. simpl.
  rewrite Z.sub_0_r, length_app_string.
  rewrite Z.max_l by lia. rewrite Z.min_l by lia.
  rewrite Nat2Z.id. apply take_string_app.
Qed.

Lemma app_string_cons s c t : (s +:+ String c "") +:+ t = s +:+ String c t.
Proof.
  induction s as [|a s IH]; [reflexivity|].
  change (String a ((s +:+ String c "") +:+ t) = String a (s +:+ String c t)).
  rewrite IH. reflexivity.
Qed.

Lemma substr_suffix s c t :
  Js.substr (s +:+ String c t) (Z.of_nat (String.length s) + 1) None = t.
Proof.
  unfold Js.substr.
  destruct (Z.ltb_spec (Z.of_nat (String.length s) + 1) 0); [lia|].
  rewrite length_app_string. simpl String.length.
  rewrite Z.min_l by lia.
  replace (Z.to_nat (Z.of_nat (String.length s) + 1)) with (String.length (s +:+ String c "")).
  2:{ rewrite length_app_string. simpl. lia. }
  rewrite <- (app_string_cons s c t).
  rewrite drop_string_app.
  replace (Z.to_nat _) with (String.length t) by lia.
  apply take_string_all.
Qed.

(** ** Objects *)

Lemma lookup_set_prop k v (obj : gmap string string) j :
  set_prop k v obj !! j =
    if decide (k = "__proto__") then obj !! j
    else if decide (k = j) then Some v else obj !! j.
Proof.
  unfold set_prop. destruct (decide (k = "__proto__")); [reflexivity|].
  apply lookup_insert.
Qed.

Lemma lookup_assign (target source : gmap string string) j :
  assign target source !! j =
    if decide (j = "__proto__") then target !! j
    else match source !! j with
         | Some v => Some v
         | None => target !! j
         end.
Proof.
  unfold assign. revert j.
  apply (map_fold_weak_ind
           (fun r (m : gmap string string) => forall j,
              r !! j = if decide (j = "__proto__") then target !! j
                       else match m !! j with
                            | Some v => Some v
                            | None => target !! j
                            end)).
  - intros j. rewrite lookup_empty. destruct (decide _); reflexivity.
  - intros i x m r Hi IH j. rewrite lookup_set_prop, IH.
    destruct (decide (i = "__proto__")) as [->|Hp].
    + destruct (decide (j = "__proto__")) as [->|Hj]; [reflexivity|].
      rewrite lookup_insert_ne by congruence. reflexivity.
    + destruct (decide (i = j)) as [->|Hij].
      * rewrite decide_False by exact Hp. rewrite lookup_insert_eq. reflexivity.
      * rewrite lookup_insert_ne by exact Hij. reflexivity.
Qed.

Lemma set_prop_no_proto k v (obj : gmap string string) :
  obj !! "__proto__" = None -> set_prop k v obj !! "__proto__" = None.
Proof.
  intros H. rewrite lookup_set_prop.
  destruct (decide (k = "__proto__")); exact H.
Qed.

Lemma set_prop_Forall (P : string -> Prop) k v (obj : gmap string string) :
  P k -> map_Forall (fun j _ => P j) obj -> map_Forall (fun j _ => P j) (set_prop k v obj).
Proof.
  intros Hk Hobj j w. rewrite lookup_set_prop.
  destruct (decide (k = "__proto__")); [apply Hobj|].
  destruct (decide (k = j)) as [<-|]; [intros _; exact Hk | apply Hobj].
Qed.

Lemma assign_Forall (P : string -> Prop) (target source : gmap string string) :
  map_Forall (fun j _ => P j) target -> map_Forall (fun j _ => P j) source ->
  map_Forall (fun j _ => P j) (assign target source).
Proof.
  intros Ht Hs j w. rewrite lookup_assign.
  destruct (decide (j = "__proto__")); [apply Ht|].
  destruct (source !! j) as [u|] eqn:E; [intros _; exact (Hs j u E) | apply Ht].
Qed.

Lemma lowercaseKeys_lowercase obj :
  map_Forall (fun j _ => lowercase j) (lowercaseKeys obj).
Proof.
  unfold lowercaseKeys.
  assert (G : forall acc : gmap string string,
             map_Forall (fun j _ => lowercase j) acc ->
             map_Forall (fun j _ => lowercase j)
               (foldl (fun ret kv => set_prop (Js.toLowerCase kv.1) kv.2 ret) acc obj)).
  { induction obj as [|kv obj IH]; intros acc Hacc; simpl; [exact Hacc|].
    apply IH, set_prop_Forall; [apply toLowerCase_lowercase | exact Hacc]. }
  apply G, map_Forall_empty.
Qed.

Lemma lowercaseKeys_no_proto obj : lowercaseKeys obj !! "__proto__" = None.
Proof.
  unfold lowercaseKeys.
  assert (G : forall acc : gmap string string,
             acc !! "__proto__" = None ->
             foldl (fun ret kv => set_prop (Js.toLowerCase kv.1) kv.2 ret) acc obj
               !! "__proto__" = None).
  { induction obj as [|kv obj IH]; intros acc Hacc; simpl; [exact Hacc|].
    apply IH, set_prop_no_proto, Hacc. }
  apply G, lookup_empty.
Qed.

(** One entry per name: the entries of a map with a given name. *)
Lemma entries_named (m : gmap string string) k v :
  m !! k = Some v -> filter (fun kv => kv.1 = k) (map_to_list m) = [(k, v)].
Proof.
  intros Hk. apply elem_of_map_to_list in Hk.
  pose proof (NoDup_fst_map_to_list m) as Hnd.
  induction (map_to_list m) as [|[j w] l IH]; [inversion Hk|].
  rewrite fmap_cons in Hnd. apply NoDup_cons in Hnd as [Hj Hl].
  rewrite filter_cons. simpl. apply elem_of_cons in Hk as [Heq|Hin].
  - inversion Heq; subst j w. rewrite decide_True by reflexivity. f_equal.
    clear IH Hl. induction l as [|[j w] l IH]; [reflexivity|].
    rewrite filter_cons. simpl. rewrite fmap_cons, not_elem_of_cons in Hj.
    destruct Hj as [Hne Hj]. simpl in Hne.
    rewrite decide_False by congruence. apply IH, Hj.
  - destruct (decide (j = k)) as [->|Hne]; [|apply IH; assumption].
    exfalso. apply Hj. apply list_elem_of_fmap. exists (k, v). split; [reflexivity | exact Hin].
Qed.

(** ** Header arguments *)

Lemma parse_headers_snoc args arg :
  parse_headers (args ++ [arg]) = add_header (parse_headers args) arg.
Proof. unfold parse_headers. rewrite foldl_app. reflexivity. Qed.

Lemma add_headers_other k (after : list string) (m : gmap string string) :
  Forall (fun a => (header_entry a).1 <> k) after ->
  foldl add_header m after !! k = m !! k.
Proof.
  revert m. induction after as [|a after IH]; intros m Hall; simpl; [reflexivity|].
  apply Forall_cons in Hall as [Ha Hall]. rewrite (IH _ Hall).
  unfold add_header. rewrite lookup_set_prop.
  destruct (decide _); [reflexivity|]. rewrite decide_False by exact Ha. reflexivity.
Qed.


Lemma parse_headers_last before arg after :
  (header_entry arg).1 <> "__proto__" ->
  Forall (fun a => (header_entry a).1 <> (header_entry arg).1) after ->
  parse_headers (before ++ arg :: after) !! (header_entry arg).1
    = Some (header_entry arg).2.
Proof.
  intros Hp Hall. unfold parse_headers. rewrite foldl_app. simpl.
  rewrite (add_headers_other _ after _ Hall).
  unfold add_header. rewrite lookup_set_prop.
  rewrite decide_False by exact Hp. rewrite decide_True by reflexivity. reflexivity.
Qed.

Lemma parse_headers_no_proto args : parse_headers args !! "__proto__" = None.
Proof.
  induction args as [|a args IH] using rev_ind; [apply lookup_empty|].
  rewrite parse_headers_snoc. apply set_prop_no_proto, IH.
Qed.

Lemma parse_headers_origin args k v :
  parse_headers args !! k = Some v ->
  exists before arg after,
    args = before ++ arg :: after /\ header_entry arg = (k, v) /\
    Forall (fun a => (header_entry a).1 <> k) after.
Proof.
  induction args as [|a args IH] using rev_ind.
  - unfold parse_headers. simpl. rewrite lookup_empty. discriminate.
  - intros H. destruct (decide (k = "__proto__")) as [->|Hk].
    { rewrite parse_headers_no_proto in H. discriminate. }
    rewrite parse_headers_snoc in H. unfold add_header in H.
    rewrite lookup_set_prop in H.
    destruct (decide ((header_entry a).1 = "__proto__")) as [Hp|Hp].
    + destruct (IH H) as (b & x & af & -> & Hx & Haf).
      exists b, x, (af ++ [a]). rewrite <- app_assoc. split; [reflexivity|].
      split; [exact Hx|]. apply Forall_app. split; [exact Haf|].
      constructor; [congruence | constructor].
    + destruct (decide ((header_entry a).1 = k)) as [Hak|Hak].
      * exists args, a, []. split; [reflexivity|]. split; [|constructor].
        destruct (header_entry a) as [n w]. simpl in *. congruence.
      * destruct (IH H) as (b & x & af & -> & Hx & Haf).
        exists b, x, (af ++ [a]). rewrite <- app_assoc. split; [reflexivity|].
        split; [exact Hx|]. apply Forall_app. split; [exact Haf|].
        constructor; [exact Hak | constructor].
Qed.

Lemma parse_headers_lowercase args :
  map_Forall (fun j _ => lowercase j) (parse_headers args).
Proof.
  induction args as [|a args IH] using rev_ind; [apply map_Forall_empty|].
  rewrite parse_headers_snoc. apply set_prop_Forall; [|exact IH].
  apply toLowerCase_lowercase.
Qed.

Lemma header_entry_plain arg : free_of ":" arg -> header_entry arg = ("", arg).
Proof.
  intros H. unfold header_entry. rewrite (indexOf_free _ _ H).
  rewrite substr_negative_length. simpl. rewrite substr_whole. reflexivity.
Qed.

Lemma header_entry_named name v :
  free_of ":" name -> header_entry (name +:+ ":" +:+ v) = (Js.toLowerCase name, v).
Proof.
  intros H. unfold header_entry.
  change (name +:+ ":" +:+ v) with (name +:+ String ":" v).
  rewrite (indexOf_first _ _ _ H), substr_prefix, substr_suffix. reflexivity.
Qed.


(** ** The header mapping of the request *)

Lemma lookup_request_headers sdk (hs : gmap string string) host k :
  request_headers sdk hs host !! k =
    if decide (k = "__proto__") then None
    else if decide (k = "host") then Some host
    else match hs !! k with
         | Some v => Some v
         | None =>
             if decide (k = "user-agent") then Some USER_AGENT
             else lowercaseKeys sdk !! k
         end.
Proof.
  unfold request_headers. rewrite !lookup_assign.
  destruct (decide (k = "__proto__")) as [->|Hp]; [apply lowercaseKeys_no_proto|].
  destruct (decide (k = "host")) as [->|Hh].
  - rewrite lookup_singleton_eq. reflexivity.
  - rewrite lookup_singleton_ne by congruence.
    destruct (hs !! k); [reflexivity|].
    destruct (decide (k = "user-agent")) as [->|Hu].
    + rewrite lookup_singleton_eq. reflexivity.
    + rewrite lookup_singleton_ne by congruence. reflexivity.
Qed.

Lemma request_headers_lowercase sdk (hs : gmap string string) host :
  map_Forall (fun j _ => lowercase j) hs ->
  map_Forall (fun j _ => lowercase j) (request_headers sdk hs host).
Proof.
  intros Hhs. unfold request_headers.
  repeat apply assign_Forall; try exact Hhs.
  - apply lowercaseKeys_lowercase.
  - apply map_Forall_singleton. reflexivity.
  - apply map_Forall_singleton. reflexivity.
Qed.

(** C1 (as the code has it): the header mapping of a constructed request
    holds exactly one entry named [host], and its value is the host of the
    endpoint parsed from the URL, whatever headers the caller supplied:
    [{host: endpoint.host}] is the last source of [Object.assign]. *)
Theorem host_header_is_endpoint_host sdk (hs : gmap string string) host :
  request_headers sdk hs host !! "host" = Some host /\
  filter (fun kv => kv.1 = "host") (map_to_list (request_headers sdk hs host))
    = [("host", host)].
Proof.
  assert (H : request_headers sdk hs host !! "host" = Some host).
  { rewrite lookup_request_headers. reflexivity. }
  split; [exact H | apply entries_named, H].
Qed.

(** C1 as stated fails: a [Host:] argument of the caller is parsed into the
    header arguments, yet the request carries the endpoint's host. *)
Lemma caller_host_is_overwritten :
  let hs := parse_headers ["Host:other.example.org"] in
  hs !! "host" = Some "other.example.org" /\
  request_headers [("User-Agent", "aws-sdk-nodejs/2.32.0")] hs
      "search-movies.us-west-2.es.amazonaws.com" !! "host"
    <> Some "other.example.org".
Proof.
  split; [vm_compute; reflexivity|].
  rewrite lookup_request_headers. simpl. discriminate.
Qed.

(** The mapping built at lines 185-189: every name is lowercase and occurs
    once; among the header arguments the value kept
    under a name is that of the last argument with that name; a header
    argument overwrites the [user-agent] default assigned before it, and
    the [host] entry assigned after the header arguments overwrites theirs. *)
Lemma built_headers_names sdk args host :
  let hs := request_headers sdk (parse_headers args) host in
  map_Forall (fun k _ => lowercase k) hs /\
  NoDup (map_to_list hs).*1 /\
  (forall k v, parse_headers args !! k = Some v ->
     exists before arg after,
       args = before ++ arg :: after /\ header_entry arg = (k, v) /\
       Forall (fun a => (header_entry a).1 <> k) after) /\
  (forall before arg after,
     args = before ++ arg :: after ->
     (header_entry arg).1 <> "__proto__" ->
     Forall (fun a => (header_entry a).1 <> (header_entry arg).1) after ->
     parse_headers args !! (header_entry arg).1 = Some (header_entry arg).2) /\
  (forall v, parse_headers args !! "user-agent" = Some v ->
     hs !! "user-agent" = Some v) /\
  hs !! "host" = Some host.
Proof.
  intros hs. split; [|split; [|split; [|split; [|split]]]].
  - apply request_headers_lowercase, parse_headers_lowercase.
  - apply NoDup_fst_map_to_list.
  - apply parse_headers_origin.
  - intros before arg after -> Hp Hall. apply parse_headers_last; assumption.
  - intros v Hv. unfold hs. rewrite lookup_request_headers, Hv. reflexivity.
  - unfold hs. rewrite lookup_request_headers. reflexivity.
Qed.

(** A string argument without [:] is entered under
    the empty name with the whole argument as its value, and it replaces
    whatever an earlier argument left under the empty name. *)
Lemma string_without_colon before arg after :
  free_of ":" arg ->
  Forall (fun a => (header_entry a).1 <> "") after ->
  header_entry arg = ("", arg) /\
  parse_headers (before ++ arg :: after) !! "" = Some arg.
Proof.
  intros Hfree Hafter. pose proof (header_entry_plain arg Hfree) as He.
  split; [exact He|].
  pose proof (parse_headers_last before arg after) as H.
  rewrite He in H. simpl in H. apply H; [discriminate | exact Hafter].
Qed.



(** ** The regular expressions *)

Lemma in_class_word a : Re.in_class true Re.word a = Re.word a.
Proof. each_code a. Qed.

Lemma in_class_region a : Re.in_class true Re.lower_digit_dash a = region_char a.
Proof. each_code a. Qed.

Lemma plus_match_ext {A} cls cls' s (k k' : string -> option A) :
  (forall a, cls a = cls' a) -> (forall t, k t = k' t) ->
  Re.plus_match cls s k = Re.plus_match cls' s k'.
Proof.
  intros Hc Hk. induction s as [|a s IH]; simpl; [reflexivity|].
  rewrite Hc, IH, Hk. reflexivity.
Qed.

(** What a successful [cls+] consumed. *)
Lemma plus_match_sound {A} cls s (k : string -> option A) x :
  Re.plus_match cls s k = Some x ->
  exists w rest,
    s = w +:+ rest /\ w <> "" /\ Js.all_chars cls w = true /\ k rest = Some x.
Proof.
  revert x. induction s as [|a s IH]; simpl; intros x H; [discriminate|].
  destruct (cls a) eqn:Ha; [|discriminate].
  destruct (Re.plus_match cls s k) as [y|] eqn:E.
  - destruct (IH y eq_refl) as (w & rest & -> & _ & Hw & Hk).
    exists (String a w), rest. simpl. rewrite Ha, Hw.
    repeat split; [discriminate | congruence].
  - exists (String a ""), s. simpl. rewrite Ha. repeat split; [discriminate | exact H].
Qed.

(** [cls+] succeeds as soon as some split of the input does. *)
Lemma plus_match_complete {A} cls w rest (k : string -> option A) :
  w <> "" -> Js.all_chars cls w = true -> is_Some (k rest) ->
  is_Some (Re.plus_match cls (w +:+ rest) k).
Proof.
  induction w as [|a w IH]; [congruence|]. intros _ Hw Hk.
  change (String a w +:+ rest) with (String a (w +:+ rest)).
  simpl in *. apply andb_true_iff in Hw as [Ha Hw]. rewrite Ha.
  destruct w as [|b w].
  - change ("" +:+ rest) with rest.
    destruct (Re.plus_match cls rest k); [eauto | exact Hk].
  - destruct (IH ltac:(discriminate) Hw Hk) as [y Hy]. rewrite Hy. eauto.
Qed.

Lemma plus_match_to_end {A} cls s (x : A) :
  Re.plus_match cls s
      (fun t => match t with EmptyString => Some x | String _ _ => None end)
    = if negb (String.eqb s "") && Js.all_chars cls s then Some x else None.
Proof.
  induction s as [|a s IH]; [reflexivity|].
  simpl. rewrite IH. destruct (cls a); [|reflexivity].
  destruct s as [|b s]; [reflexivity|]. simpl.
  destruct (cls b && Js.all_chars cls s); reflexivity.
Qed.

Lemma lit_match_sound icase l s s' :
  Re.lit_match icase l s = Some s' ->
  exists w, s = w +:+ s' /\
    (if icase then Js.toUpperCase w = Js.toUpperCase l else w = l).
Proof.
  revert s. induction l as [|c l IH]; simpl; intros s H.
  - injection H as ->. exists "". split; [reflexivity | destruct icase; reflexivity].
  - destruct s as [|a s]; [discriminate|].
    destruct (Re.chr_eq icase c a) eqn:Hc; [|discriminate].
    destruct (IH s H) as (w & -> & Hw). exists (String a w). split; [reflexivity|].
    unfold Re.chr_eq in Hc. destruct icase; apply Ascii.eqb_eq in Hc.
    + unfold Js.toUpperCase in *. simpl. rewrite Hw, Hc. reflexivity.
    + congruence.
Qed.

Lemma host_end_match input s cap :
  Re.rmatch true input host_end s cap (fun _ c => Some c)
    = if at_host_end s then Some cap else None.
Proof.
  destruct s as [|a s]; [reflexivity|]. each_code a.
Qed.

(** [exec] reports the match at the leftmost start that has one. *)
Lemma exec_from_leftmost icase input r s g :
  Re.exec_from icase input r s = Some g ->
  exists pre t,
    s = pre +:+ t /\
    Re.rmatch icase input r t None (fun _ cap => Some cap) = Some g /\
    forall pre1 t1, s = pre1 +:+ t1 ->
      (String.length pre1 < String.length pre)%nat ->
      Re.rmatch icase input r t1 None (fun _ cap => Some cap) = None.
Proof.
  induction s as [|a s IH]; simpl.
  - destruct (Re.rmatch icase input r "" None _) eqn:E; [|discriminate].
    intros [= ->]. exists "", "". repeat split; [exact E|].
    intros ? ? _ Hlt. simpl in Hlt. lia.
  - destruct (Re.rmatch icase input r (String a s) None _) eqn:E.
    + intros [= ->]. exists "", (String a s). repeat split; [exact E|].
      intros ? ? _ Hlt. simpl in Hlt. lia.
    + intros H. destruct (IH H) as (pre & t & -> & Hm & Hleft).
      exists (String a pre), t. repeat split; [exact Hm|].
      intros pre1 t1 Heq Hlt. destruct pre1 as [|b pre1].
      * change ("" +:+ t1) with t1 in Heq. subst t1. exact E.
      * change (String b pre1 +:+ t1) with (String b (pre1 +:+ t1)) in Heq.
        injection Heq as -> Heq. apply (Hleft pre1 t1 Heq). simpl in Hlt. lia.
Qed.

Lemma exec_from_none icase input r s :
  Re.exec_from icase input r s = None <->
  forall pre t, s = pre +:+ t ->
    Re.rmatch icase input r t None (fun _ cap => Some cap) = None.
Proof.
  induction s as [|a s IH]; simpl.
  - destruct (Re.rmatch icase input r "" None _) eqn:E.
    + split; [discriminate|]. intros H. rewrite (H "" "" eq_refl) in E. discriminate.
    + split; [|reflexivity]. intros _ pre t Heq.
      destruct pre; [change ("" +:+ t) with t in Heq; subst t; exact E | discriminate].
  - destruct (Re.rmatch icase input r (String a s) None _) eqn:E.
    + split; [discriminate|]. intros H. rewrite (H "" _ eq_refl) in E. discriminate.
    + rewrite IH. split.
      * intros H pre t Heq. destruct pre as [|b pre].
        -- change ("" +:+ t) with t in Heq. subst t. exact E.
        -- change (String b pre +:+ t) with (String b (pre +:+ t)) in Heq.
           injection Heq as -> Heq. apply (H pre t Heq).
      * intros H pre t Heq. apply (H (String a pre) t). rewrite Heq. reflexivity.
Qed.

Lemma exec_from_unfold icase input r s :
  Re.exec_from icase input r s =
    match Re.rmatch icase input r s None (fun _ cap => Some cap) with
    | Some cap => Some cap
    | None =>
        match s with
        | EmptyString => None
        | String _ s' => Re.exec_from icase input r s'
        end
    end.
Proof. destruct s; reflexivity. Qed.

Lemma word_re_at input t :
  Re.rmatch false input word_re t None (fun _ cap => Some cap)
    = if (String.length t =? String.length input)%nat
      then if word_token t then Some None else None
      else None.
Proof.
  unfold word_re, word_token.
  change (Re.rmatch false input (Re.Bol ⋅ Re.Plus Re.word ⋅ Re.Eol)%re t None
            (fun _ cap => Some cap))
    with (if (String.length t =? String.length input)%nat
          then Re.plus_match Re.word t
                 (fun s' => match s' with
                            | EmptyString => Some (@None string)
                            | String _ _ => None
                            end)
          else None).
  rewrite plus_match_to_end. reflexivity.
Qed.

Lemma word_re_not_inside input t :
  (String.length t < String.length input)%nat ->
  Re.exec_from false input word_re t = None.
Proof.
  induction t as [|a t IH]; intros Hlt; rewrite exec_from_unfold, word_re_at.
  - destruct (Nat.eqb_spec (String.length "") (String.length input)); [lia | reflexivity].
  - destruct (Nat.eqb_spec (String.length (String a t)) (String.length input)); [lia|].
    apply IH. simpl in Hlt. lia.
Qed.

(** [/^\w+$/.test(s)] holds exactly for a non-empty run of word characters. *)
Lemma test_word_re s : Re.test false word_re s = word_token s.
Proof.
  unfold Re.test, Re.exec. destruct s as [|a s]; [reflexivity|].
  rewrite exec_from_unfold, word_re_at, Nat.eqb_refl.
  destruct (word_token (String a s)); [reflexivity|].
  rewrite word_re_not_inside by (simpl; lia). reflexivity.
Qed.

(** A first argument that is a string: the method is the upper-cased
    argument when that is a run of word characters, and [GET] otherwise; in
    both cases a token of upper-case letters, digits and underscores. *)
Lemma method_of_string_argument first rest :
  parse_method_url (Js.Str first :: rest)
    = (if word_token first
       then Return (Js.toUpperCase first, head rest, tail rest)
       else Return ("GET", Some (Js.Str first), rest)) /\
  uppercase_token (if word_token first then Js.toUpperCase first else "GET").
Proof.
  split.
  - unfold parse_method_url. simpl head. simpl Js.to_string.
    rewrite test_word_re. destruct (word_token first); [|reflexivity].
    simpl. destruct rest; reflexivity.
  - destruct (word_token first) eqn:E; [|split; [discriminate | reflexivity]].
    unfold word_token in E. apply andb_true_iff in E as [Hne Hw].
    split; [|apply toUpperCase_word, Hw].
    destruct first; [discriminate | simpl; discriminate].
Qed.

(** A first argument that yargs read as a number: when its text is a run
    of word characters, as for [123], the pattern accepts it and calling
    [toUpperCase] on the number throws. *)
Lemma method_of_number_argument text rest :
  parse_method_url (Js.Num text :: rest)
    = (if word_token text then Throw type_error
       else Return ("GET", Some (Js.Num text), rest)).
Proof.
  unfold parse_method_url. simpl head. simpl Js.to_string.
  rewrite test_word_re. destruct (word_token text); reflexivity.
Qed.

(** *** The service and region patterns *)

Lemma consumed_app w s : consumed (w +:+ s) s = w.
Proof.
  unfold consumed. rewrite length_app_string.
  replace (String.length w + String.length s - String.length s)%nat
    with (String.length w) by lia.
  apply take_string_app.
Qed.

Lemma service_re_at input t :
  Re.rmatch true input service_re t None (fun _ cap => Some cap)
    = Re.plus_match Re.word t (fun s => suffix_then_end (consumed t s) s).
Proof.
  change (Re.rmatch true input service_re t None (fun _ cap => Some cap))
    with (Re.plus_match (Re.in_class true Re.word) t
            (fun s =>
               match Re.lit_match true dot_amazonaws_com s with
               | Some s' =>
                   Re.rmatch true input host_end s' (Some (consumed t s))
                     (fun _ cap => Some cap)
               | None => None
               end)).
  apply plus_match_ext; [apply in_class_word|].
  intros s. unfold suffix_then_end.
  destruct (Re.lit_match true dot_amazonaws_com s); [apply host_end_match | reflexivity].
Qed.

Lemma region_re_at input t :
  Re.rmatch true input region_re t None (fun _ cap => Some cap)
    = Re.plus_match region_char t
        (fun s =>
           match Re.lit_match true "." s with
           | Some s' => Re.plus_match Re.word s' (suffix_then_end (consumed t s))
           | None => None
           end).
Proof.
  change (Re.rmatch true input region_re t None (fun _ cap => Some cap))
    with (Re.plus_match (Re.in_class true Re.lower_digit_dash) t
            (fun s =>
               match Re.lit_match true "." s with
               | Some s' =>
                   Re.plus_match (Re.in_class true Re.word) s'
                     (fun s2 =>
                        match Re.lit_match true dot_amazonaws_com s2 with
                        | Some s3 =>
                            Re.rmatch true input host_end s3 (Some (consumed t s))
                              (fun _ cap => Some cap)
                        | None => None
                        end)
               | None => None
               end)).
  apply plus_match_ext; [apply in_class_region|].
  intros s. destruct (Re.lit_match true "." s) as [s'|]; [|reflexivity].
  apply plus_match_ext; [apply in_class_word|].
  intros s2. unfold suffix_then_end.
  destruct (Re.lit_match true dot_amazonaws_com s2); [apply host_end_match | reflexivity].
Qed.

Lemma lower_upper_char a : Js.lower_char (Js.upper_char a) = Js.lower_char a.
Proof. each_code a. Qed.

Lemma same_upper_same_lower w l :
  Js.toUpperCase w = Js.toUpperCase l -> Js.toLowerCase w = Js.toLowerCase l.
Proof.
  assert (G : forall s, Js.toLowerCase (Js.toUpperCase s) = Js.toLowerCase s).
  { induction s as [|a s IH]; [reflexivity|].
    unfold Js.toLowerCase, Js.toUpperCase in *. simpl.
    rewrite lower_upper_char, IH. reflexivity. }
  intros H. rewrite <- (G w), H. apply G.
Qed.

Lemma chr_eq_dot a : Re.chr_eq true "." a = true -> a = "."%char.
Proof. each_code a. Qed.

Lemma lit_dot_sound s s' : Re.lit_match true "." s = Some s' -> s = String "." s'.
Proof.
  destruct s as [|a s]; [discriminate|]. unfold Re.lit_match.
  destruct (Re.chr_eq true "." a) eqn:E; [|discriminate].
  intros [= ->]. rewrite (chr_eq_dot a E). reflexivity.
Qed.

Lemma suffix_then_end_sound g s r :
  suffix_then_end g s = Some r ->
  r = Some g /\
  exists suffix rest,
    s = suffix +:+ rest /\
    Js.toLowerCase suffix = dot_amazonaws_com /\ at_host_end rest = true.
Proof.
  unfold suffix_then_end.
  destruct (Re.lit_match true dot_amazonaws_com s) as [s'|] eqn:E; [|discriminate].
  destruct (at_host_end s') eqn:He; [|discriminate].
  intros [= <-]. split; [reflexivity|].
  destruct (lit_match_sound _ _ _ _ E) as (w & -> & Hw).
  exists w, s'. repeat split; [|exact He].
  rewrite (same_upper_same_lower _ _ Hw). reflexivity.
Qed.

(** Whether the tail matches does not depend on the text of the group. *)
Lemma suffix_then_end_any g g' s :
  is_Some (suffix_then_end g s) -> is_Some (suffix_then_end g' s).
Proof.
  unfold suffix_then_end. destruct (Re.lit_match true dot_amazonaws_com s); [|exact id].
  destruct (at_host_end _); [eauto | exact id].
Qed.

(** What [service_re] finds: a maximal run of word characters that stands
    right before [.amazonaws.com] and the end of the host. *)
Lemma service_re_sound url g :
  Re.exec true service_re url = Some g ->
  exists pre name suffix rest,
    g = Some name /\ url = pre +:+ name +:+ suffix +:+ rest /\
    word_token name = true /\ not_ending_in Re.word pre /\
    Js.toLowerCase suffix = dot_amazonaws_com /\ at_host_end rest = true.
Proof.
  intros H. destruct (exec_from_leftmost _ _ _ _ _ H) as (pre & t & Hurl & Hm & Hleft).
  rewrite service_re_at in Hm.
  destruct (plus_match_sound _ _ _ _ Hm) as (name & s & -> & Hne & Hw & Hk).
  rewrite consumed_app in Hk.
  destruct (suffix_then_end_sound _ _ _ Hk) as (-> & suffix & rest & -> & Hsuf & Hend).
  exists pre, name, suffix, rest. repeat split; try assumption.
  - unfold word_token. rewrite Hw, andb_true_r.
    destruct name; [congruence | reflexivity].
  - intros pre' a -> . destruct (Re.word a) eqn:Ha; [exfalso | reflexivity].
    assert (Hsome : is_Some (Re.rmatch true url service_re
                      (String a name +:+ suffix +:+ rest) None (fun _ cap => Some cap))).
    { rewrite service_re_at.
      apply (plus_match_complete Re.word (String a name) (suffix +:+ rest)).
      - discriminate.
      - simpl. rewrite Ha, Hw. reflexivity.
      - apply (suffix_then_end_any name). rewrite Hk. eauto. }
    rewrite (Hleft pre' (String a name +:+ suffix +:+ rest)) in Hsome.
    + destruct Hsome as [? ?]. discriminate.
    + rewrite Hurl. exact (app_string_cons pre' a _).
    + rewrite length_app_string. simpl. lia.
Qed.

(** What [region_re] finds: a maximal run of letters, digits and dashes,
    then a dot and a run of word characters right before [.amazonaws.com]
    and the end of the host. *)
Lemma region_re_sound url g :
  Re.exec true region_re url = Some g ->
  exists pre name label suffix rest,
    g = Some name /\ url = pre +:+ name +:+ "." +:+ label +:+ suffix +:+ rest /\
    name <> "" /\ Js.all_chars region_char name = true /\
    not_ending_in region_char pre /\ word_token label = true /\
    Js.toLowerCase suffix = dot_amazonaws_com /\ at_host_end rest = true.
Proof.
  intros H. destruct (exec_from_leftmost _ _ _ _ _ H) as (pre & t & Hurl & Hm & Hleft).
  rewrite region_re_at in Hm.
  destruct (plus_match_sound _ _ _ _ Hm) as (name & s & -> & Hne & Hw & Hk).
  rewrite consumed_app in Hk.
  destruct (Re.lit_match true "." s) as [s'|] eqn:Hdot; [|discriminate].
  apply lit_dot_sound in Hdot as ->.
  destruct (plus_match_sound _ _ _ _ Hk) as (label & s2 & -> & Hlne & Hlw & Hk2).
  destruct (suffix_then_end_sound _ _ _ Hk2) as (-> & suffix & rest & -> & Hsuf & Hend).
  exists pre, name, label, suffix, rest. repeat split; try assumption.
  - intros pre' a -> . destruct (region_char a) eqn:Ha; [exfalso | reflexivity].
    assert (Hsome : is_Some (Re.rmatch true url region_re
                      (String a name +:+ String "." (label +:+ suffix +:+ rest))
                      None (fun _ cap => Some cap))).
    { rewrite region_re_at.
      apply (plus_match_complete region_char (String a name)
               (String "." (label +:+ suffix +:+ rest))).
      - discriminate.
      - simpl. rewrite Ha, Hw. reflexivity.
      - change (Re.lit_match true "." (String "." (label +:+ suffix +:+ rest)))
          with (Some (label +:+ suffix +:+ rest)).
        apply plus_match_complete; [exact Hlne | exact Hlw |].
        apply (suffix_then_end_any name). rewrite Hk2. eauto. }
    rewrite (Hleft pre' (String a name +:+ String "." (label +:+ suffix +:+ rest)))
      in Hsome.
    + destruct Hsome as [? ?]. discriminate.
    + rewrite Hurl. exact (app_string_cons pre' a _).
    + rewrite length_app_string. simpl. lia.
  - unfold word_token. rewrite Hlw, andb_true_r.
    destruct label; [congruence | reflexivity].
Qed.

Lemma upper_lower_char a :
  Js.code (Js.lower_char a) < 128 ->
  Js.upper_char (Js.lower_char a) = Js.upper_char a.
Proof. each_code a. Qed.

Lemma same_lower_same_upper w l :
  Js.toLowerCase w = l -> Js.all_chars (fun c => Js.code c <? 128) l = true ->
  Js.toUpperCase w = Js.toUpperCase l.
Proof.
  revert l. induction w as [|a w IH]; intros [|c l] H Hl; try discriminate H.
  - reflexivity.
  - unfold Js.toLowerCase, Js.toUpperCase in *. simpl in *.
    injection H as Hc Hw. apply andb_true_iff in Hl as [Hcl Hl].
    rewrite (IH l Hw Hl). f_equal. rewrite <- Hc. symmetry.
    apply upper_lower_char. rewrite Hc. apply Z.ltb_lt, Hcl.
Qed.

Lemma lit_match_complete l w rest :
  Js.toUpperCase w = Js.toUpperCase l -> Re.lit_match true l (w +:+ rest) = Some rest.
Proof.
  revert w. induction l as [|c l IH]; intros [|a w] H; try discriminate H.
  - reflexivity.
  - unfold Js.toUpperCase in *. simpl in H. injection H as Ha Hw.
    change (String a w +:+ rest) with (String a (w +:+ rest)). simpl.
    unfold Re.chr_eq. rewrite Ha, Ascii.eqb_refl. apply IH, Hw.
Qed.

Lemma suffix_then_end_complete g suffix rest :
  Js.toLowerCase suffix = dot_amazonaws_com -> at_host_end rest = true ->
  suffix_then_end g (suffix +:+ rest) = Some (Some g).
Proof.
  intros Hsuf Hend. unfold suffix_then_end.
  rewrite lit_match_complete, Hend; [reflexivity|].
  apply (same_lower_same_upper _ _ Hsuf). reflexivity.
Qed.

Lemma exec_from_found icase input r pre t :
  is_Some (Re.rmatch icase input r t None (fun _ cap => Some cap)) ->
  is_Some (Re.exec_from icase input r (pre +:+ t)).
Proof.
  intros [g Hg]. destruct (Re.exec_from icase input r (pre +:+ t)) eqn:E; [eauto|].
  rewrite (proj1 (exec_from_none _ _ _ _) E pre t eq_refl) in Hg. discriminate.
Qed.

Lemma word_token_inv s :
  word_token s = true -> s <> "" /\ Js.all_chars Re.word s = true.
Proof.
  unfold word_token. intros [Hne Hw]%andb_true_iff. split; [|exact Hw].
  intros ->. discriminate.
Qed.

Lemma region_re_matches url :
  is_Some (Re.exec true region_re url) <-> has_region_pattern url.
Proof.
  split.
  - intros [g Hg].
    destruct (region_re_sound _ _ Hg)
      as (pre & name & label & suffix & rest & _ & ? & ? & ? & _ & ? & ? & ?).
    exists pre, name, label, suffix, rest. repeat split; assumption.
  - intros (pre & name & label & suffix & rest & -> & Hne & Hn & Hl & Hsuf & Hend).
    apply word_token_inv in Hl as [Hlne Hl].
    apply exec_from_found. rewrite region_re_at.
    apply plus_match_complete; [exact Hne | exact Hn |].
    change (Re.lit_match true "." ("." +:+ label +:+ suffix +:+ rest))
      with (Some (label +:+ suffix +:+ rest)).
    apply plus_match_complete; [exact Hlne | exact Hl |].
    rewrite suffix_then_end_complete by assumption. eauto.
Qed.

Lemma service_re_matches url :
  is_Some (Re.exec true service_re url) <-> has_service_pattern url.
Proof.
  split.
  - intros [g Hg].
    destruct (service_re_sound _ _ Hg)
      as (pre & name & suffix & rest & _ & ? & ? & _ & ? & ?).
    exists pre, name, suffix, rest. repeat split; assumption.
  - intros (pre & name & suffix & rest & -> & Hn & Hsuf & Hend).
    apply word_token_inv in Hn as [Hne Hn].
    apply exec_from_found. rewrite service_re_at.
    apply plus_match_complete; [exact Hne | exact Hn |].
    rewrite suffix_then_end_complete by assumption. eauto.
Qed.

Lemma resolve_region_unmatched url :
  ~ has_region_pattern url -> resolve_region None url = Throw type_error.
Proof.
  intros H. unfold resolve_region, exec_group1.
  destruct (Re.exec true region_re url) as [g|] eqn:E; [|reflexivity].
  exfalso. apply H, region_re_matches. rewrite E. eauto.
Qed.

Lemma resolve_region_matched url :
  has_region_pattern url -> exists name, resolve_region None url = Return (Some name).
Proof.
  intros [g Hg]%region_re_matches. unfold resolve_region, exec_group1. rewrite Hg.
  destruct (region_re_sound _ _ Hg) as (_ & name & _ & _ & _ & -> & _).
  exists name. reflexivity.
Qed.

(** ** Region and service inference *)

(** C2 as stated fails: for [https://dynamodb.us-west-2.amazonaws.com/]
    (and for the same URL without its final slash) no region is found, so
    [exec(url)[1]] throws, and the service found is [2], the run of word
    characters before [.amazonaws.com], not the first label. *)
Lemma dynamodb_url_not_resolved :
  resolve_region None "https://dynamodb.us-west-2.amazonaws.com/" = Throw type_error /\
  resolve_service None "https://dynamodb.us-west-2.amazonaws.com/" = Return (Some "2") /\
  resolve_region None "https://dynamodb.us-west-2.amazonaws.com" = Throw type_error /\
  resolve_service None "https://dynamodb.us-west-2.amazonaws.com" = Return (Some "2") /\
  ~ (resolve_region None "https://dynamodb.us-west-2.amazonaws.com/"
       = Return (Some "us-west-2") /\
     resolve_service None "https://dynamodb.us-west-2.amazonaws.com/"
       = Return (Some "dynamodb")).
Proof.
  repeat split; try (vm_compute; reflexivity).
  intros [H _]. vm_compute in H. discriminate.
Qed.

(** C2 (as the code has it): with no override, a resolved service is the
    maximal run of word characters standing right before [.amazonaws.com]
    (in any letter case) and the end of the host, and a resolved region is
    the maximal run of letters, digits and dashes standing before one more
    label and that suffix: hosts of the form
    [<region>.<service>.amazonaws.com].  For
    [https://search-movies.us-west-2.es.amazonaws.com/] the region is
    [us-west-2] and the service [es]; for [https://iam.amazonaws.com] the
    service is [iam]. *)
Theorem service_and_region_inference :
  (forall url s, resolve_service None url = Return s ->
     exists pre name suffix rest,
       s = Some name /\ url = pre +:+ name +:+ suffix +:+ rest /\
       word_token name = true /\ not_ending_in Re.word pre /\
       Js.toLowerCase suffix = ".amazonaws.com" /\ at_host_end rest = true) /\
  (forall url r, resolve_region None url = Return r ->
     exists pre name label suffix rest,
       r = Some name /\ url = pre +:+ name +:+ "." +:+ label +:+ suffix +:+ rest /\
       name <> "" /\ Js.all_chars region_char name = true /\
       not_ending_in region_char pre /\ word_token label = true /\
       Js.toLowerCase suffix = ".amazonaws.com" /\ at_host_end rest = true) /\
  resolve_region None "https://search-movies.us-west-2.es.amazonaws.com/"
    = Return (Some "us-west-2") /\
  resolve_service None "https://search-movies.us-west-2.es.amazonaws.com/"
    = Return (Some "es") /\
  resolve_service None "https://iam.amazonaws.com" = Return (Some "iam").
Proof.
  split; [|split; [|repeat split; vm_compute; reflexivity]].
  - intros url s H. unfold resolve_service, exec_group1 in H.
    destruct (Re.exec true service_re url) as [g|] eqn:E; [|discriminate].
    injection H as <-. apply service_re_sound, E.
  - intros url r H. unfold resolve_region, exec_group1 in H.
    destruct (Re.exec true region_re url) as [g|] eqn:E; [|discriminate].
    injection H as <-. apply region_re_sound, E.
Qed.

Lemma service_and_region_inference_witness :
  (exists pre name suffix rest,
     Some "ES" = Some name /\
     "https://search-movies.us-west-2.ES.amazonaws.com:443/_search"
       = pre +:+ name +:+ suffix +:+ rest /\
     word_token name = true /\ not_ending_in Re.word pre /\
     Js.toLowerCase suffix = ".amazonaws.com" /\ at_host_end rest = true) /\
  (exists pre name label suffix rest,
     Some "us-west-2" = Some name /\
     "https://search-movies.us-west-2.es.amazonaws.com"
       = pre +:+ name +:+ "." +:+ label +:+ suffix +:+ rest /\
     name <> "" /\ Js.all_chars region_char name = true /\
     not_ending_in region_char pre /\ word_token label = true /\
     Js.toLowerCase suffix = ".amazonaws.com" /\ at_host_end rest = true).
Proof.
  split.
  - apply (proj1 service_and_region_inference
             "https://search-movies.us-west-2.ES.amazonaws.com:443/_search" (Some "ES")).
    vm_compute. reflexivity.
  - apply (proj1 (proj2 service_and_region_inference)
             "https://search-movies.us-west-2.es.amazonaws.com" (Some "us-west-2")).
    vm_compute. reflexivity.
Defined.

(** ** Classifying the response *)

Lemma append_assoc_string s t u : (s +:+ t) +:+ u = s +:+ (t +:+ u).
Proof.
  induction s as [|a s IH]; [reflexivity|].
  change (String a ((s +:+ t) +:+ u) = String a (s +:+ t +:+ u)).
  rewrite IH. reflexivity.
Qed.

Lemma append_empty_string s : s +:+ "" = s.
Proof.
  induction s as [|a s IH]; [reflexivity|].
  change (String a (s +:+ "") = String a s). rewrite IH. reflexivity.
Qed.

Lemma data_events status message hs chunks acc :
  foldl on_event
    {| ls_metadata := Metadata status message hs acc; ls_promise := None |}
    (map Data chunks)
  = {| ls_metadata := Metadata status message hs (acc +:+ whole_body chunks);
       ls_promise := None |}.
Proof.
  revert acc. induction chunks as [|c chunks IH]; intros acc; simpl.
  - rewrite append_empty_string. reflexivity.
  - rewrite IH, append_assoc_string. reflexivity.
Qed.

(** C5: once the body has arrived, a status in [200, 300) resolves with the
    response summary (status, message, headers, whole body); any other
    status rejects with an error carrying that same summary, which
    [handleError] hands to the response printer before exiting with 1.  An
    error of the transport has no [response]: it rejects as it is and
    [handleError] prints its stack instead. *)
Theorem response_classification status message hs chunks name :
  let m := Metadata status message hs (whole_body chunks) in
  let arrived := Response status message hs (map Data chunks ++ [End]) in
  let broken :=
    Response status message hs (map Data chunks ++ [StreamError (JsError name None)]) in
  handleResponse arrived
    = Some (if (200 <=? status) && (status <? 300) then Return m
            else Throw (http_error m)) /\
  err_response (http_error m) = Some m /\
  handleError (http_error m) = ([FormatResponse m error], Exit 1) /\
  handleResponse broken = Some (Throw (JsError name None)) /\
  handleError (JsError name None) = ([LogStack (JsError name None)], Exit 1).
Proof.
  intros m arrived broken. unfold handleResponse, arrived, broken. simpl.
  rewrite !foldl_app, !data_events. simpl.
  repeat split.
  destruct (Z.ltb_spec status 200), (Z.leb_spec 200 status),
    (Z.ltb_spec status 300), (Z.geb_spec status 300); simpl; try reflexivity; lia.
Qed.

(** ** The whole run *)

Section Run.

Context (normalizeUrl : option Js.arg -> result string)
        (new_Endpoint : string -> result endpoint)
        (HttpRequest_headers : endpoint -> list (string * string))
        (addAuthorization :
           request -> option string -> credentials -> Z -> result request)
        (now : Z)
        (getStdin : promise string)
        (config_getCredentials : option string -> promise credentials)
        (SharedIniFileCredentials : string -> result credentials)
        (client_handleRequest : request -> promise response)
        (stdin_rejects_first : bool).

Local Abbreviation startup' := (startup normalizeUrl).
Local Abbreviation createRequest' :=
  (createRequest new_Endpoint HttpRequest_headers addAuthorization now).
Local Abbreviation getCredentials' :=
  (getCredentials config_getCredentials SharedIniFileCredentials).
Local Abbreviation chain' :=
  (chain new_Endpoint HttpRequest_headers addAuthorization now getStdin
         client_handleRequest stdin_rejects_first).
Local Abbreviation upstream_failure' :=
  (upstream_failure normalizeUrl new_Endpoint config_getCredentials
                    SharedIniFileCredentials).
Local Abbreviation main' :=
  (main normalizeUrl new_Endpoint HttpRequest_headers addAuthorization now getStdin
        config_getCredentials SharedIniFileCredentials client_handleRequest
        stdin_rejects_first).

Lemma handleError_sends_nothing e r : Send r ∉ (handleError e).1.
Proof.
  unfold handleError. simpl. destruct (err_response e);
    intros [H|H]%elem_of_cons; try discriminate H; inversion H.
Qed.

Lemma and_then_effects {A B} (t : task A) (f : A -> task B) x :
  x ∈ (and_then t f).1 ->
  x ∈ t.1 \/ exists a, t.2 = Some (Return a) /\ x ∈ (f a).1.
Proof.
  destruct t as [fx [[a|e]|]]; simpl; [|tauto|tauto].
  intros [H|H]%elem_of_app; [left; exact H | right; eauto].
Qed.

Lemma catch_effects (t : task unit) x :
  x ∈ (catch_handleError t).1 ->
  x ∈ t.1 \/ exists e, t.2 = Some (Throw e) /\ x ∈ (handleError e).1.
Proof.
  destruct t as [fx [[a|e]|]]; simpl; [tauto| |tauto].
  intros [H|H]%elem_of_app; [left; exact H | right; eauto].
Qed.

Lemma handleRequest_sends a req body r :
  Send r ∈ (handleRequest client_handleRequest a req body).1 -> r = req.
Proof.
  unfold handleRequest. simpl. rewrite !elem_of_app.
  destruct (has_flag "H" (argv_print a)), (has_flag "B" (argv_print a));
    intros [H|[H|H]];
    repeat (apply elem_of_cons in H as [H|H]; try discriminate H);
    try (inversion H; fail); congruence.
Qed.

(** A request on the wire is one that [createRequest] returned, built from
    the body and the credentials that [Promise.all] delivered. *)
Lemma chain_sends a cfg creds r :
  Send r ∈ (chain' a cfg creds).1 ->
  exists body c,
    promise_all stdin_rejects_first getStdin creds = Some (Return (body, c)) /\
    createRequest' cfg body c = Return r.
Proof.
  unfold chain. intros [H|(e & _ & H)]%catch_effects;
    [|exfalso; exact (handleError_sends_nothing _ _ H)].
  apply and_then_effects in H as [H|(m & _ & H)];
    [|apply elem_of_cons in H as [H|H]; [discriminate | inversion H]].
  apply and_then_effects in H as [H|(res & _ & H)]; [|inversion H].
  apply and_then_effects in H as [H|([body c] & Hall & H)]; [inversion H|].
  simpl in Hall, H. exists body, c. split; [exact Hall|].
  destruct (createRequest' cfg body c) as [req|e]; [|inversion H].
  apply handleRequest_sends in H. congruence.
Qed.

Lemma main_sends a r :
  Send r ∈ (main' a).1 ->
  exists cfg creds body c,
    startup' a = Return cfg /\ getCredentials' a cfg = Return creds /\
    promise_all stdin_rejects_first getStdin creds = Some (Return (body, c)) /\
    createRequest' cfg body c = Return r.
Proof.
  unfold main. destruct (startup' a) as [cfg|e]; [|intros H; inversion H].
  destruct (getCredentials' a cfg) as [creds|e] eqn:Hcreds; [|intros H; inversion H].
  intros (body & c & Hall & Hreq)%chain_sends.
  exists cfg, creds, body, c. repeat split; assumption.
Qed.

(** C4: an override is the resolved value, whatever the URL; the start-up
    code then keeps it as the region (the service) of the run, the
    regular expression for it being never evaluated. *)
Theorem override_is_resolved_value a (r s : string) :
  (forall url, resolve_region (Some r) url = Return (Some r)) /\
  (forall url, resolve_service (Some s) url = Return (Some s)) /\
  (argv_region a = Some r ->
   forall cfg, startup' a = Return cfg -> cfg_region cfg = Some r) /\
  (argv_service a = Some s ->
   forall cfg, startup' a = Return cfg -> cfg_service cfg = Some s).
Proof.
  split; [reflexivity|]. split; [reflexivity|].
  unfold startup.
  destruct (parse_method_url (argv_positional a)) as [[[m u] rest]|e]; simpl;
    [|split; intros _ cfg H; discriminate H].
  destruct (normalizeUrl u) as [url|e]; simpl;
    [|split; intros _ cfg H; discriminate H].
  split.
  - intros -> cfg. simpl.
    destruct (resolve_service (argv_service a) url); simpl; [|discriminate].
    destruct (header_loop ∅ rest); simpl; [|discriminate].
    intros [= <-]. reflexivity.
  - intros -> cfg.
    destruct (resolve_region (argv_region a) url); simpl; [|discriminate].
    destruct (header_loop ∅ rest); simpl; [|discriminate].
    intros [= <-]. reflexivity.
Qed.

(** C7: after an upstream failure (the start-up code throws on the URL, the
    region or the service; the credentials cannot be had; the endpoint
    cannot be built from the URL) no request is handed to the transport;
    and any request that is handed to it is one that [createRequest]
    returned, signed, from the resolved body and credentials. *)
Theorem no_dispatch_after_upstream_failure a :
  (upstream_failure' a -> forall r, Send r ∉ (main' a).1) /\
  (forall r, Send r ∈ (main' a).1 ->
     exists cfg creds body c,
       startup' a = Return cfg /\ getCredentials' a cfg = Return creds /\
       promise_all stdin_rejects_first getStdin creds = Some (Return (body, c)) /\
       createRequest' cfg body c = Return r).
Proof.
  split; [|apply main_sends].
  intros Hfail r (cfg & creds & body & c & Hs & Hc & Hall & Hreq)%main_sends.
  destruct Hfail as [e He|cfg' e Hs' He|cfg' e Hs' He|cfg' e Hs' He].
  - congruence.
  - rewrite Hs in Hs'. injection Hs' as <-. congruence.
  - rewrite Hs in Hs'. injection Hs' as <-. rewrite Hc in He. injection He as ->.
    unfold promise_all in Hall. destruct getStdin as [[?|?]|]; discriminate.
  - rewrite Hs in Hs'. injection Hs' as <-.
    unfold createRequest in Hreq. rewrite He in Hreq. discriminate.
Qed.

(** C3 (as the code has it): with no [--region] and a URL in which the
    region pattern has no match, [exec(url)] is [null] and reading its
    element [1] throws a plain [TypeError]; it is thrown by the start-up
    code, outside the promise chain, so the run ends on an uncaught
    exception with nothing done.  No region is ever resolved to
    [undefined]. *)
Theorem unmatched_region_throws_type_error a method raw rest url :
  parse_method_url (argv_positional a) = Return (method, raw, rest) ->
  normalizeUrl raw = Return url ->
  argv_region a = None ->
  ~ has_region_pattern url ->
  resolve_region (argv_region a) url = Throw type_error /\
  err_name type_error = "TypeError" /\
  startup' a = Throw type_error /\
  main' a = ([], Uncaught type_error) /\
  (forall override url', resolve_region override url' <> Return None).
Proof.
  intros Hargs Hurl Hnone Hno.
  assert (Hr : resolve_region (argv_region a) url = Throw type_error).
  { rewrite Hnone. apply resolve_region_unmatched, Hno. }
  assert (Hs : startup' a = Throw type_error).
  { unfold startup. rewrite Hargs. simpl. rewrite Hurl. simpl. rewrite Hr. reflexivity. }
  repeat split; try assumption.
  - unfold main. rewrite Hs. reflexivity.
  - intros [r|] url' H; [discriminate|].
    unfold resolve_region, exec_group1 in H.
    destruct (Re.exec true region_re url') as [g|] eqn:E; [|discriminate].
    destruct (region_re_sound _ _ E) as (_ & name & _ & _ & _ & -> & _).
    discriminate.
Qed.

End Run.

(** C3 as stated fails: for a host outside [amazonaws.com] the error thrown
    is the [TypeError] of reading [null[1]], not one named after the region. *)
Lemma unmatched_region_error_is_untyped :
  resolve_region None "https://example.com" = Throw type_error /\
  ~ (exists e, resolve_region None "https://example.com" = Throw e /\
               err_name e = "RegionResolutionError").
Proof.
  split; [vm_compute; reflexivity|].
  intros (e & He & Hname). vm_compute in He. injection He as <-. discriminate.
Qed.

Lemma unmatched_region_witness :
  Sample.main Sample.getCredentials
    (Argv "b" "none" None None None [Js.Str "https://example.com"])
  = ([], Uncaught type_error).
Proof.
  apply (unmatched_region_throws_type_error
           Sample.normalizeUrl Sample.new_Endpoint Sample.HttpRequest_headers
           Sample.addAuthorization 0 (Some (Return "")) Sample.getCredentials
           Sample.SharedIniFileCredentials Sample.client false
           (Argv "b" "none" None None None [Js.Str "https://example.com"])
           "GET" (Some (Js.Str "https://example.com")) [] "https://example.com").
  - vm_compute. reflexivity.
  - reflexivity.
  - reflexivity.
  - intros H. apply region_re_matches in H. vm_compute in H.
    destruct H as [g H]. discriminate.
Defined.

Lemma no_dispatch_witness :
  ~ exists r,
      Send r ∈ (Sample.main Sample.noCredentials
                  (Argv "b" "none" (Some "us-east-1") None (Some "es")
                        [Js.Str "https://search-movies.us-east-1.es.amazonaws.com"])).1.
Proof.
  intros [r Hin]. revert r Hin.
  apply (proj1 (no_dispatch_after_upstream_failure
           Sample.normalizeUrl Sample.new_Endpoint Sample.HttpRequest_headers
           Sample.addAuthorization 0 (Some (Return "")) Sample.noCredentials
           Sample.SharedIniFileCredentials Sample.client false
           (Argv "b" "none" (Some "us-east-1") None (Some "es")
                 [Js.Str "https://search-movies.us-east-1.es.amazonaws.com"]))).
  eapply credentials_rejected; vm_compute; reflexivity.
Defined.

(** A run that goes through: the request is sent as built, with the
    caller's [Accept] header, the endpoint's host and the default
    [user-agent], and the response is printed. *)
Example sample_run_sends :
  exists r,
    Sample.main Sample.getCredentials
      (Argv "b" "none" None None None
            [Js.Str "get"; Js.Str "https://search-movies.us-east-1.es.amazonaws.com/_search";
             Js.Str "Accept:*/*"; Js.Str "Host:other.example.org"])
    = ([Send r; FormatResponse (Metadata 200 "OK" ∅ "{}") info], Completed) /\
    req_method r = "GET" /\ req_region r = Some "us-east-1" /\
    req_headers r !! "accept" = Some "*/*" /\
    req_headers r !! "host" = Some "search-movies.us-east-1.es.amazonaws.com" /\
    req_headers r !! "user-agent" = Some USER_AGENT.
Proof. eexists. repeat split; vm_compute; reflexivity. Qed.

(** * Further properties *)

(** ** The [--print] check *)

Lemma anchored_plus_at cls input t :
  Re.rmatch false input (Re.Bol ⋅ Re.Plus cls ⋅ Re.Eol)%re t None (fun _ cap => Some cap)
    = if (String.length t =? String.length input)%nat
      then if negb (String.eqb t "") && Js.all_chars cls t then Some None else None
      else None.
Proof.
  change (Re.rmatch false input (Re.Bol ⋅ Re.Plus cls ⋅ Re.Eol)%re t None
            (fun _ cap => Some cap))
    with (if (String.length t =? String.length input)%nat
          then Re.plus_match cls t
                 (fun s' => match s' with
                            | EmptyString => Some (@None string)
                            | String _ _ => None
                            end)
          else None).
  rewrite plus_match_to_end. reflexivity.
Qed.

Lemma anchored_plus_not_inside cls input t :
  (String.length t < String.length input)%nat ->
  Re.exec_from false input (Re.Bol ⋅ Re.Plus cls ⋅ Re.Eol)%re t = None.
Proof.
  induction t as [|a t IH]; intros Hlt; rewrite exec_from_unfold, anchored_plus_at.
  - destruct (Nat.eqb_spec (String.length "") (String.length input)); [lia | reflexivity].
  - destruct (Nat.eqb_spec (String.length (String a t)) (String.length input)); [lia|].
    apply IH. simpl in Hlt. lia.
Qed.

Lemma test_anchored_plus cls s :
  Re.test false (Re.Bol ⋅ Re.Plus cls ⋅ Re.Eol)%re s
    = negb (String.eqb s "") && Js.all_chars cls s.
Proof.
  unfold Re.test, Re.exec. destruct s as [|a s]; [reflexivity|].
  rewrite exec_from_unfold, anchored_plus_at, Nat.eqb_refl.
  destruct (negb (String.eqb (String a s) "") && Js.all_chars cls (String a s));
    [reflexivity|].
  rewrite anchored_plus_not_inside by (simpl; lia). reflexivity.
Qed.

Lemma has_flag_all_chars p c s :
  Js.all_chars p s = true -> has_flag c s = true -> p c = true.
Proof.
  unfold has_flag. induction s as [|a s IH]; simpl; [discriminate|].
  intros [Ha Hs]%andb_true_iff. destruct (Ascii.eqb_spec a c) as [<-|Hne].
  - intros _. exact Ha.
  - intros H. apply IH; [exact Hs|].
    destruct (Z.ltb_spec (Js.indexOf c s) 0) as [Hlt|Hge]; [discriminate H|].
    apply negb_true_iff, Z.eqb_neq. lia.
Qed.

(** X1: the [--print] value passes exactly when it is a non-empty string of
    the letters [H], [B], [h], [b]; then it is kept as it is and carries no
    other flag, and otherwise a plain [Error] is thrown. *)
Theorem print_value_check val :
  coerce_print val
    = (if negb (String.eqb val "") && Js.all_chars print_flag val
       then Return val
       else Throw {| err_name := "Error"; err_response := None |}) /\
  (forall kept c,
     coerce_print val = Return kept -> has_flag c kept = true -> print_flag c = true).
Proof.
  assert (E : coerce_print val
              = if negb (String.eqb val "") && Js.all_chars print_flag val
                then Return val
                else Throw {| err_name := "Error"; err_response := None |}).
  { unfold coerce_print, print_re. rewrite test_anchored_plus.
    destruct (negb (String.eqb val "") && Js.all_chars print_flag val); reflexivity. }
  split; [exact E|].
  intros kept c. rewrite E.
  destruct (negb (String.eqb val "") && Js.all_chars print_flag val) eqn:Hok;
    [|discriminate].
  intros [= <-]. apply andb_true_iff in Hok as [_ Hall].
  apply has_flag_all_chars, Hall.
Qed.

(** ** Service inference *)

Lemma region_pattern_has_service url :
  has_region_pattern url -> has_service_pattern url.
Proof.
  intros (pre & name & label & suffix & rest & -> & _ & _ & Hl & Hsuf & Hend).
  exists (pre +:+ name +:+ "."), label, suffix, rest.
  repeat split; try assumption.
  rewrite !append_assoc_string. reflexivity.
Qed.

Lemma resolve_region_throws override url e :
  resolve_region override url = Throw e -> e = type_error.
Proof.
  unfold resolve_region, exec_group1. destruct override; [discriminate|].
  destruct (Re.exec true region_re url); [discriminate|]. congruence.
Qed.

Lemma resolve_service_unmatched url :
  ~ has_service_pattern url -> resolve_service None url = Throw type_error.
Proof.
  intros H. unfold resolve_service, exec_group1.
  destruct (Re.exec true service_re url) as [g|] eqn:E; [|reflexivity].
  exfalso. apply H, service_re_matches. rewrite E. eauto.
Qed.

(** X2: whenever the region is inferred from a URL, the service can be
    inferred from it too: a match of the region pattern ends in a match of
    the service pattern. *)
Theorem inferred_region_gives_service url r :
  resolve_region None url = Return r ->
  exists s, resolve_service None url = Return (Some s).
Proof.
  intros H. unfold resolve_region, exec_group1 in H.
  destruct (Re.exec true region_re url) as [g|] eqn:E; [|discriminate].
  assert (Hs : has_service_pattern url).
  { apply region_pattern_has_service, region_re_matches. rewrite E. eauto. }
  apply service_re_matches in Hs as [g' Hg'].
  destruct (service_re_sound _ _ Hg') as (_ & name & _ & _ & -> & _).
  exists name. unfold resolve_service, exec_group1. rewrite Hg'. reflexivity.
Qed.

Lemma inferred_region_gives_service_witness :
  exists s,
    resolve_service None "https://search-movies.eu-west-1.es.amazonaws.com/_cat"
      = Return (Some s).
Proof.
  apply (inferred_region_gives_service
           "https://search-movies.eu-west-1.es.amazonaws.com/_cat" (Some "eu-west-1")).
  vm_compute. reflexivity.
Defined.

(** ** Header arguments *)

Lemma first_occurrence_split c s :
  ~ free_of c s -> exists raw v, s = raw +:+ String c v /\ free_of c raw.
Proof.
  unfold free_of. induction s as [|a s IH]; simpl; [intros H; exfalso; apply H; reflexivity|].
  destruct (Ascii.eqb_spec a c) as [->|Hne]; simpl.
  - intros _. exists "", s. split; reflexivity.
  - intros H. destruct (IH H) as (raw & v & -> & Hraw).
    exists (String a raw), v. split; [reflexivity|].
    simpl. rewrite Hraw. apply Ascii.eqb_neq in Hne. rewrite Hne. reflexivity.
Qed.

(** X3: a header argument with a colon is split at its first colon: the
    name is the text before it, lower-cased, and the value is everything
    after it, later colons included; nothing of the argument is lost. *)
Theorem header_argument_split arg :
  ~ free_of ":" arg ->
  exists raw value,
    arg = raw +:+ ":" +:+ value /\ free_of ":" raw /\
    header_entry arg = (Js.toLowerCase raw, value).
Proof.
  intros (raw & v & -> & Hraw)%first_occurrence_split.
  exists raw, v. split; [reflexivity|]. split; [exact Hraw|].
  apply header_entry_named, Hraw.
Qed.

Lemma header_argument_split_witness :
  exists raw value,
    "X-Amz-Meta: at 12:30" = raw +:+ ":" +:+ value /\ free_of ":" raw /\
    header_entry "X-Amz-Meta: at 12:30" = (Js.toLowerCase raw, value).
Proof.
  apply (header_argument_split "X-Amz-Meta: at 12:30").
  unfold free_of. vm_compute. discriminate.
Defined.

(** ** The response stream *)

Lemma after_settled evs status message hs body x :
  foldl on_event
    {| ls_metadata := Metadata status message hs body; ls_promise := Some x |} evs
  = {| ls_metadata := Metadata status message hs (body +:+ later_data evs);
       ls_promise := Some x |}.
Proof.
  revert body. induction evs as [|ev evs IH]; intros body; simpl.
  - rewrite append_empty_string. reflexivity.
  - destruct ev as [d| |e]; simpl.
    + rewrite IH, append_assoc_string. reflexivity.
    + destruct (_ || _); apply IH.
    + apply IH.
Qed.

(** X4: the promise of [handleResponse] stays pending while only data
    arrives and is settled by the first [end] or [error] event.  What the
    stream emits after that cannot change how it was settled; later data
    is still appended to the body of the summary that the promise holds. *)
Theorem response_settles_once status message hs chunks rest :
  let m := Metadata status message hs (whole_body chunks +:+ later_data rest) in
  handleResponse (Response status message hs (map Data chunks)) = None /\
  handleResponse (Response status message hs (map Data chunks ++ End :: rest))
    = Some (if (200 <=? status) && (status <? 300) then Return m
            else Throw (http_error m)) /\
  (forall e,
     handleResponse
       (Response status message hs (map Data chunks ++ StreamError e :: rest))
     = Some (Throw e)).
Proof.
  intros m. unfold handleResponse. simpl.
  rewrite !data_events. simpl. split; [reflexivity|]. split.
  - rewrite foldl_app, data_events. simpl.
    destruct (Z.ltb_spec status 200), (Z.leb_spec 200 status),
      (Z.ltb_spec status 300), (Z.geb_spec status 300); simpl; try lia;
      rewrite after_settled; reflexivity.
  - intros e. rewrite foldl_app, data_events. simpl.
    rewrite after_settled. reflexivity.
Qed.

Lemma response_settles_once_witness :
  handleResponse
    (Response 200 "OK" ∅ (map Data ["{"; "}"] ++ End :: [Data "late"; StreamError type_error]))
  = Some (Return (Metadata 200 "OK" ∅ "{}late")).
Proof.
  exact (proj1 (proj2 (response_settles_once 200 "OK" ∅ ["{"; "}"]
                         [Data "late"; StreamError type_error]))).
Defined.

Lemma listening_inv_step res seen st ev :
  listening_inv res seen st -> listening_inv res (seen ++ [ev]) (on_event st ev).
Proof.
  intros (Hc & Hm & Hh & Hp).
  assert (Hin : forall x, x ∈ seen -> x ∈ seen ++ [ev]).
  { intros x Hx. apply elem_of_app. left. exact Hx. }
  assert (Hev : ev ∈ seen ++ [ev]).
  { apply elem_of_app. right. apply list_elem_of_singleton. reflexivity. }
  assert (Hkeep : forall x, ls_promise st = Some x ->
            match x with
            | Resolved => 200 <= res_statusCode res < 300 /\ End ∈ seen ++ [ev]
            | RejectedWithResponse =>
                (res_statusCode res < 200 \/ 300 <= res_statusCode res)
                /\ End ∈ seen ++ [ev]
            | Rejected e => StreamError e ∈ seen ++ [ev]
            end).
  { intros x E. rewrite E in Hp. destruct x; [| |auto]; destruct Hp; auto. }
  destruct ev as [d| |e]; unfold listening_inv; simpl.
  - split_and!; try assumption.
    destruct (ls_promise st) as [x|] eqn:E; [exact (Hkeep x eq_refl) | exact I].
  - split_and!; try assumption.
    destruct (ls_promise st) as [x|] eqn:E.
    + destruct (_ || _); simpl; exact (Hkeep x eq_refl).
    + rewrite Hc.
      destruct (Z.ltb_spec (res_statusCode res) 200);
        destruct (Z.geb_spec (res_statusCode res) 300); simpl;
        split; auto; lia.
  - split_and!; try assumption.
    destruct (ls_promise st) as [x|] eqn:E; simpl; [exact (Hkeep x eq_refl)|].
    exact Hev.
Qed.

Lemma listening_inv_events res seen st evs :
  listening_inv res seen st -> listening_inv res (seen ++ evs) (foldl on_event st evs).
Proof.
  revert seen st. induction evs as [|ev evs IH]; intros seen st H; simpl.
  - rewrite app_nil_r. exact H.
  - replace (seen ++ ev :: evs) with ((seen ++ [ev]) ++ evs)
      by (rewrite <- app_assoc; reflexivity).
    apply IH, listening_inv_step, H.
Qed.

Lemma handleResponse_outcomes res :
  match handleResponse res with
  | None => True
  | Some (Return m) =>
      200 <= statusCode m < 300 /\ statusCode m = res_statusCode res /\
      statusMessage m = res_statusMessage res /\ resp_headers m = res_headers res /\
      End ∈ res_events res
  | Some (Throw e) =>
      (exists m, e = http_error m /\
         (statusCode m < 200 \/ 300 <= statusCode m) /\
         statusCode m = res_statusCode res /\
         statusMessage m = res_statusMessage res /\ resp_headers m = res_headers res /\
         End ∈ res_events res)
      \/ StreamError e ∈ res_events res
  end.
Proof.
  pose proof (listening_inv_events res []
                {| ls_metadata :=
                     Metadata (res_statusCode res) (res_statusMessage res)
                              (res_headers res) "";
                   ls_promise := None |} (res_events res)) as H.
  simpl in H. unfold handleResponse.
  destruct H as (Hc & Hm & Hh & H); [split_and!; reflexivity|].
  destruct (ls_promise _) as [[| |e]|]; [| | |exact I].
  - destruct H. split_and!; auto; lia.
  - destruct H. left. eexists. split_and!; eauto; lia.
  - right. exact H.
Qed.

(** X5: whatever the stream emits, a response summary that
    [handleResponse] resolves with has a status in [200, 300), and one it
    attaches to a rejection has a status outside it; both carry the status,
    message and headers of the response and come from an [end] event.  Any
    other rejection is an error the stream itself emitted. *)
Theorem response_outcome_sound res :
  (forall m, handleResponse res = Some (Return m) ->
     200 <= statusCode m < 300 /\ statusCode m = res_statusCode res /\
     statusMessage m = res_statusMessage res /\ resp_headers m = res_headers res /\
     End ∈ res_events res) /\
  (forall e, handleResponse res = Some (Throw e) ->
     (exists m, e = http_error m /\
        (statusCode m < 200 \/ 300 <= statusCode m) /\
        statusCode m = res_statusCode res /\
        statusMessage m = res_statusMessage res /\ resp_headers m = res_headers res /\
        End ∈ res_events res)
     \/ StreamError e ∈ res_events res).
Proof.
  pose proof (handleResponse_outcomes res) as H.
  split; intros x Hx; rewrite Hx in H; exact H.
Qed.

(** ** The shape of a run *)

Section RunShape.

Context (normalizeUrl : option Js.arg -> result string)
        (new_Endpoint : string -> result endpoint)
        (HttpRequest_headers : endpoint -> list (string * string))
        (addAuthorization :
           request -> option string -> credentials -> Z -> result request)
        (now : Z)
        (getStdin : promise string)
        (config_getCredentials : option string -> promise credentials)
        (SharedIniFileCredentials : string -> result credentials)
        (client_handleRequest : request -> promise response)
        (stdin_rejects_first : bool).

Local Abbreviation startup' := (startup normalizeUrl).
Local Abbreviation createRequest' :=
  (createRequest new_Endpoint HttpRequest_headers addAuthorization now).
Local Abbreviation chain' :=
  (chain new_Endpoint HttpRequest_headers addAuthorization now getStdin
         client_handleRequest stdin_rejects_first).
Local Abbreviation main' :=
  (main normalizeUrl new_Endpoint HttpRequest_headers addAuthorization now getStdin
        config_getCredentials SharedIniFileCredentials client_handleRequest
        stdin_rejects_first).

Lemma chain_cases a cfg creds :
  chain' a cfg creds =
    match promise_all stdin_rejects_first getStdin creds with
    | None => ([], Pending)
    | Some (Throw e) => ((handleError e).1, Exit 1)
    | Some (Return (body, c)) =>
        match createRequest' cfg body c with
        | Throw e => ((handleError e).1, Exit 1)
        | Return r =>
            match client_handleRequest r with
            | None => (request_echo a r body ++ [Send r], Pending)
            | Some (Throw e) =>
                ((request_echo a r body ++ [Send r]) ++ (handleError e).1, Exit 1)
            | Some (Return res) =>
                match handleResponse res with
                | None => (request_echo a r body ++ [Send r], Pending)
                | Some (Throw e) =>
                    ((request_echo a r body ++ [Send r]) ++ (handleError e).1, Exit 1)
                | Some (Return m) =>
                    ((request_echo a r body ++ [Send r]) ++ [FormatResponse m info],
                     Completed)
                end
            end
        end
    end.
Proof.
  unfold chain, request_echo.
  destruct (promise_all stdin_rejects_first getStdin creds) as [[[body c]|e]|];
    simpl; try reflexivity.
  destruct (createRequest' cfg body c) as [r|e]; simpl; [|reflexivity].
  unfold handleRequest.
  destruct (client_handleRequest r) as [[res|e]|]; simpl;
    rewrite <- ?app_assoc; try reflexivity.
  destruct (handleResponse res) as [[m|e]|]; simpl;
    rewrite ?app_nil_r, <- ?app_assoc; reflexivity.
Qed.

(** X6: with no [--service] and a URL without the service pattern, the
    start-up code throws the [TypeError] of reading [null[1]], whether or
    not a region was given, and the run ends there, uncaught. *)
Theorem unmatched_service_throws_type_error a method raw rest url :
  parse_method_url (argv_positional a) = Return (method, raw, rest) ->
  normalizeUrl raw = Return url ->
  argv_service a = None ->
  ~ has_service_pattern url ->
  startup' a = Throw type_error /\ main' a = ([], Uncaught type_error).
Proof.
  intros Hargs Hurl Hnone Hno.
  assert (Hs : startup' a = Throw type_error).
  { unfold startup. rewrite Hargs. simpl. rewrite Hurl. simpl.
    destruct (resolve_region (argv_region a) url) as [r|e] eqn:Hr; simpl.
    - rewrite Hnone, (resolve_service_unmatched url Hno). reflexivity.
    - rewrite (resolve_region_throws _ _ _ Hr). reflexivity. }
  split; [exact Hs|]. unfold main. rewrite Hs. reflexivity.
Qed.

(** X7: a run hands at most one request to the transport.  What precedes
    it is the echo of that request, and what follows is at most one final
    print: the response, or what [handleError] prints. *)
Theorem run_sends_at_most_once a :
  exists sent last,
    (main' a).1 = sent ++ last /\
    (sent = [] \/ exists r body, sent = request_echo a r body ++ [Send r]) /\
    (length (filter is_send (main' a).1) <= 1)%nat /\
    (last = [] \/ (exists m, last = [FormatResponse m info])
     \/ exists e, last = (handleError e).1).
Proof.
  assert (Hecho : forall r body, filter is_send (request_echo a r body) = []).
  { intros r body. unfold request_echo.
    destruct (has_flag "H" (argv_print a)), (has_flag "B" (argv_print a)); reflexivity. }
  assert (Herr : forall e, filter is_send (handleError e).1 = []).
  { intros e. unfold handleError. simpl. destruct (err_response e); reflexivity. }
  unfold main. destruct (startup' a) as [cfg|e].
  2:{ exists [], []. cbn [fst snd app]. split_and!; auto. }
  destruct (getCredentials _ _ a cfg) as [creds|e].
  2:{ exists [], []. cbn [fst snd app]. split_and!; auto. }
  rewrite chain_cases.
  destruct (promise_all stdin_rejects_first getStdin creds) as [[[body c]|e]|].
  2:{ exists [], (handleError e).1. cbn [fst snd app]. rewrite ?Herr. split_and!; eauto. }
  2:{ exists [], []. cbn [fst snd app]. split_and!; auto. }
  destruct (createRequest' cfg body c) as [r|e].
  2:{ exists [], (handleError e).1. cbn [fst snd app]. rewrite ?Herr. split_and!; eauto. }
  assert (Hone : forall last, filter is_send last = [] ->
            (length (filter is_send ((request_echo a r body ++ [Send r]) ++ last)) <= 1)%nat).
  { intros last Hl. rewrite !filter_app, Hecho, Hl. simpl. lia. }
  destruct (client_handleRequest r) as [[res|e]|].
  - destruct (handleResponse res) as [[m|e]|].
    + exists (request_echo a r body ++ [Send r]), [FormatResponse m info]. cbn [fst snd].
      split_and!; eauto.
    + exists (request_echo a r body ++ [Send r]), (handleError e).1. cbn [fst snd].
      split_and!; eauto.
    + exists (request_echo a r body ++ [Send r]), []. cbn [fst snd].
      rewrite app_nil_r. split_and!; eauto.
      rewrite <- (app_nil_r (_ ++ [Send r])). apply Hone. reflexivity.
  - exists (request_echo a r body ++ [Send r]), (handleError e).1. cbn [fst snd].
    split_and!; eauto.
  - exists (request_echo a r body ++ [Send r]), []. cbn [fst snd].
    rewrite app_nil_r. split_and!; eauto.
    rewrite <- (app_nil_r (_ ++ [Send r])). apply Hone. reflexivity.
Qed.

(** X8: what the end of a run tells.  It completes only after a request
    was sent and a response with a status in [200, 300) was printed at the
    [info] level; it exits with 1 (and no other status) right after
    [handleError] printed; an uncaught exception comes before anything is
    done; and while it is pending nothing but the echo and the dispatch
    has happened. *)
Theorem run_exit_status a :
  ((main' a).2 = Completed ->
     exists r body m,
       (main' a).1 = request_echo a r body ++ [Send r; FormatResponse m info] /\
       200 <= statusCode m < 300) /\
  (forall n, (main' a).2 = Exit n ->
     n = 1 /\ exists before e, (main' a).1 = before ++ (handleError e).1) /\
  (forall e, (main' a).2 = Uncaught e -> (main' a).1 = []) /\
  ((main' a).2 = Pending ->
     (main' a).1 = [] \/ exists r body, (main' a).1 = request_echo a r body ++ [Send r]).
Proof.
  unfold main. destruct (startup' a) as [cfg|e0].
  2:{ simpl. split_and!; try discriminate; auto. }
  destruct (getCredentials _ _ a cfg) as [creds|e0].
  2:{ simpl. split_and!; try discriminate; auto. }
  rewrite chain_cases.
  destruct (promise_all stdin_rejects_first getStdin creds) as [[[body c]|e0]|].
  2:{ simpl. split_and!; try discriminate; auto.
      intros n [= <-]. split; [reflexivity|]. exists [], e0. reflexivity. }
  2:{ simpl. split_and!; try discriminate; auto. }
  destruct (createRequest' cfg body c) as [r|e0].
  2:{ simpl. split_and!; try discriminate; auto.
      intros n [= <-]. split; [reflexivity|]. exists [], e0. reflexivity. }
  destruct (client_handleRequest r) as [[res|e0]|].
  - destruct (handleResponse res) as [[m|e0]|] eqn:Hres.
    + simpl. split_and!; try discriminate.
      intros _. exists r, body, m. rewrite <- app_assoc. split; [reflexivity|].
      pose proof (handleResponse_outcomes res) as Hout. rewrite Hres in Hout.
      apply Hout.
    + simpl. split_and!; try discriminate.
      intros n [= <-]. split; [reflexivity|]. eauto.
    + simpl. split_and!; try discriminate. eauto.
  - simpl. split_and!; try discriminate.
    intros n [= <-]. split; [reflexivity|]. eauto.
  - simpl. split_and!; try discriminate. eauto.
Qed.

End RunShape.

(** ** Printing *)

Lemma code_le_alt s t : Lib.code_le s t <-> s = t \/ String_as_OT.lt s t.
Proof.
  unfold Lib.code_le, String.leb.
  destruct (String.compare s t) eqn:E.
  - apply String_as_OT.cmp_eq in E. tauto.
  - apply String_as_OT.cmp_lt in E. tauto.
  - split; [discriminate|]. intros [-> | H].
    + assert (String.compare t t = Eq) by (apply String_as_OT.cmp_eq; reflexivity).
      congruence.
    + apply String_as_OT.cmp_lt in H. unfold String_as_OT.cmp in H. congruence.
Qed.

#[local] Instance code_le_total : Total Lib.code_le.
Proof. intros s t. apply String.leb_total. Qed.

#[local] Instance code_le_trans : Transitive Lib.code_le.
Proof.
  intros s t u. rewrite !code_le_alt. intros [-> | H1] [-> | H2]; auto.
  right. exact (String_as_OT.lt_trans s t u H1 H2).
Qed.

Lemma sorted_keys (hs : gmap string string) :
  StronglySorted Lib.code_le (Lib.sort (map_to_list hs).*1) /\
  NoDup (Lib.sort (map_to_list hs).*1) /\
  forall k, k ∈ Lib.sort (map_to_list hs).*1 <-> is_Some (hs !! k).
Proof.
  unfold Lib.sort. split; [apply StronglySorted_merge_sort; apply _|]. split.
  - rewrite merge_sort_Permutation. apply NoDup_fst_map_to_list.
  - intros k. rewrite merge_sort_Permutation, list_elem_of_fmap. split.
    + intros ([k' v] & -> & Hin). apply elem_of_map_to_list in Hin. simpl. eauto.
    + intros [v Hv]. exists (k, v). split; [reflexivity|].
      apply elem_of_map_to_list, Hv.
Qed.

(** X9: the headers are printed one per call, as [name: value] in the
    colour of the method, each header once and in ascending order of the
    names. *)
Theorem headers_printed_sorted chalk (hs : gmap string string) type :
  exists names,
    formatHeaders chalk hs type
      = map (fun k => Console type [chalk (color type) (k +:+ ": " +:+ default "" (hs !! k))])
            names /\
    StronglySorted Lib.code_le names /\ NoDup names /\
    (forall k, k ∈ names <-> is_Some (hs !! k)).
Proof.
  exists (Lib.sort (map_to_list hs).*1).
  destruct (sorted_keys hs) as (Hsorted & Hnd & Hkeys).
  split; [|split_and!; assumption].
  unfold formatHeaders, logger. apply map_ext_in. intros k Hin.
  apply list_elem_of_In, Hkeys in Hin as [v Hv]. rewrite Hv. reflexivity.
Qed.

Lemma formatHeaders_length chalk (hs : gmap string string) type :
  length (formatHeaders chalk hs type) = size hs.
Proof.
  unfold formatHeaders, Lib.sort.
  rewrite length_map, merge_sort_Permutation, length_fmap.
  apply length_map_to_list.
Qed.


(** *** The content-type patterns *)

Lemma test_from_spec p prev s :
  Rb.test_from p prev s = true <->
  exists pre post, s = pre +:+ post /\ Rb.match_here p (Rb.last_code prev pre) post = true.
Proof.
  revert prev. induction s as [|a s IH]; intros prev; simpl.
  - rewrite orb_false_r. split.
    + intros H. exists "", "". split; [reflexivity | exact H].
    + intros (pre & post & Heq & H). destruct pre; [|discriminate].
      change ("" +:+ post) with post in Heq. subst post. exact H.
  - rewrite orb_true_iff, IH. split.
    + intros [H|(pre & post & -> & H)].
      * exists "", (String a s). split; [reflexivity | exact H].
      * exists (String a pre), post. split; [reflexivity | exact H].
    + intros (pre & post & Heq & H). destruct pre as [|b pre].
      * change ("" +:+ post) with post in Heq. subst post. left. exact H.
      * change (String b pre +:+ post) with (String b (pre +:+ post)) in Heq.
        injection Heq as -> ->. right. exists pre, post. split; [reflexivity | exact H].
Qed.

Lemma lit_match_exact l s s' : Re.lit_match false l s = Some s' <-> s = l +:+ s'.
Proof.
  split.
  - intros H. destruct (lit_match_sound _ _ _ _ H) as (w & -> & ->). reflexivity.
  - intros ->. induction l as [|c l IH]; [reflexivity|].
    change (String c l +:+ s') with (String c (l +:+ s')). simpl.
    rewrite Ascii.eqb_refl. exact IH.
Qed.

Lemma test_json_re s : Rb.test json_re s = true <-> has_word "json" s.
Proof.
  unfold Rb.test, has_word. rewrite test_from_spec.
  split; intros (pre & post & -> & H).
  - unfold json_re in H. cbn [Rb.match_here] in H.
    apply andb_true_iff in H as [Hb H].
    destruct (Re.lit_match false "json" post) as [s'|] eqn:E; [|discriminate].
    apply lit_match_exact in E as ->. exists pre, s'. split; [reflexivity|].
    simpl in Hb, H. rewrite andb_true_r in H. split.
    + destruct (Rb.is_word (Rb.last_code None pre)); [discriminate | reflexivity].
    + destruct (Rb.is_word (Rb.next_code s')); [discriminate | reflexivity].
  - destruct H as [Hpre Hpost]. exists pre, ("json" +:+ post). split; [reflexivity|].
    unfold json_re. cbn [Rb.match_here].
    rewrite (proj2 (lit_match_exact "json" ("json" +:+ post) post) eq_refl).
    simpl. rewrite Hpre, Hpost. reflexivity.
Qed.

Lemma test_from_unfold p prev s :
  Rb.test_from p prev s
    = Rb.match_here p prev s ||
      match s with
      | EmptyString => false
      | String a s' => Rb.test_from p (Some a) s'
      end.
Proof. destruct s; reflexivity. Qed.

Lemma test_from_bol_inside p c s : Rb.test_from (Rb.Bol :: p) (Some c) s = false.
Proof. revert c. induction s as [|a s IH]; intros c; simpl; [reflexivity | apply IH]. Qed.

Lemma test_text_plain_re s :
  Rb.test text_plain_re s = true <-> begins_with_word "text/plain" s.
Proof.
  unfold Rb.test, begins_with_word, text_plain_re.
  assert (E : Rb.test_from [Rb.Bol; Rb.Lit "text/plain"; Rb.WordBoundary] None s
              = Rb.match_here [Rb.Lit "text/plain"; Rb.WordBoundary] None s).
  { rewrite test_from_unfold. destruct s as [|a s].
    - apply orb_false_r.
    - rewrite test_from_bol_inside. apply orb_false_r. }
  rewrite E. cbn [Rb.match_here]. split.
  - destruct (Re.lit_match false "text/plain" s) as [s'|] eqn:El; [|discriminate].
    apply lit_match_exact in El as ->. intros H. exists s'. split; [reflexivity|].
    simpl in H. rewrite andb_true_r in H.
    destruct (Rb.is_word (Rb.next_code s')); [discriminate | reflexivity].
  - intros (post & -> & Hpost).
    rewrite (proj2 (lit_match_exact "text/plain" ("text/plain" +:+ post) post) eq_refl).
    simpl. rewrite Hpost. reflexivity.
Qed.

(** X12: [indent] never fails and re-formats the body only when the
    content type names [json] as a whole word and the body parses; in any
    other case, a response without content type included, the body comes
    back as it is. *)
Theorem indent_only_json json_reformat code resp :
  (has_word "json" (content_type resp) ->
   indent json_reformat code resp
     = match json_reformat code with
       | Return out => out
       | Throw _ => code
       end) /\
  (~ has_word "json" (content_type resp) -> indent json_reformat code resp = code) /\
  (resp_headers resp !! "content-type" = None -> indent json_reformat code resp = code).
Proof.
  unfold indent. fold (content_type resp). split_and!.
  - intros H. apply test_json_re in H. rewrite H. reflexivity.
  - intros H. destruct (Rb.test json_re (content_type resp)) eqn:E; [|reflexivity].
    exfalso. apply H, test_json_re, E.
  - intros H. unfold content_type. rewrite H. reflexivity.
Qed.

(** X13: [highlight] never fails and leaves the body alone when the content
    type begins with [text/plain] as a whole word, or when the highlighter
    throws; any other body is highlighted, that of a response without
    content type included. *)
Theorem highlight_skips_text_plain highlightAuto code resp :
  (begins_with_word "text/plain" (content_type resp) ->
   highlight highlightAuto code resp = code) /\
  (~ begins_with_word "text/plain" (content_type resp) ->
   highlight highlightAuto code resp
     = match highlightAuto code with
       | Return out => out
       | Throw _ => code
       end) /\
  (resp_headers resp !! "content-type" = None ->
   highlight highlightAuto code resp
     = match highlightAuto code with
       | Return out => out
       | Throw _ => code
       end).
Proof.
  unfold highlight. fold (content_type resp). split_and!.
  - intros H. apply test_text_plain_re in H. rewrite H. reflexivity.
  - intros H. destruct (Rb.test text_plain_re (content_type resp)) eqn:E; [|reflexivity].
    exfalso. apply H, test_text_plain_re, E.
  - intros H. unfold content_type. rewrite H. reflexivity.
Qed.

(** X11: a non-empty body is printed as it came, whatever the formatter
    and the highlighter would do, with [--pretty none] (in the colour of
    the method) and, for every other [--pretty] value, when the content
    type begins with [text/plain] and does not name [json] (uncoloured). *)
Theorem body_printed_verbatim chalk json_reformat highlightAuto a resp type :
  has_flag "b" (argv_print a) = true ->
  resp_body resp <> "" ->
  argv_pretty a = "none" \/
  (~ has_word "json" (content_type resp) /\
   begins_with_word "text/plain" (content_type resp)) ->
  exists head,
    formatResponse chalk json_reformat highlightAuto a resp type
      = head ++ [Console type [if String.eqb (argv_pretty a) "none"
                               then chalk (color type) (resp_body resp)
                               else resp_body resp]].
Proof.
  intros Hb Hbody Hcase. unfold formatResponse. rewrite Hb.
  eexists. f_equal.
  destruct (resp_body resp) as [|c body] eqn:Ebody; [congruence|].
  cbn [String.length Nat.eqb].
  destruct (String.eqb (argv_pretty a) "none") eqn:Enone; [reflexivity|].
  destruct Hcase as [Hnone | [Hjson Hplain]].
  { rewrite Hnone in Enone. discriminate. }
  assert (Hi : forall code, indent json_reformat code resp = code).
  { intros code. unfold indent. fold (content_type resp).
    destruct (Rb.test json_re (content_type resp)) eqn:E; [|reflexivity].
    exfalso. apply Hjson, test_json_re, E. }
  assert (Hh : forall code, highlight highlightAuto code resp = code).
  { intros code. unfold highlight. fold (content_type resp).
    rewrite (proj2 (test_text_plain_re _) Hplain). reflexivity. }
  unfold logger_bare. do 3 f_equal.
  destruct (_ || _), (_ || _); simpl; rewrite ?Hi, ?Hh; reflexivity.
Qed.

Lemma body_printed_verbatim_witness :
  exists head,
    formatResponse SamplePrint.chalk SamplePrint.json_reformat SamplePrint.highlightAuto
      (Argv "hb" "all" None None None [])
      (Metadata 200 "OK" {[ "content-type" := "text/plain; charset=utf-8" ]} "{}") info
    = head ++ [Console info ["{}"]].
Proof.
  apply (body_printed_verbatim SamplePrint.chalk SamplePrint.json_reformat
           SamplePrint.highlightAuto (Argv "hb" "all" None None None [])
           (Metadata 200 "OK" {[ "content-type" := "text/plain; charset=utf-8" ]} "{}")
           info).
  - reflexivity.
  - discriminate.
  - right. split.
    + intros H. apply test_json_re in H. vm_compute in H. discriminate.
    + apply test_text_plain_re. vm_compute. reflexivity.
Defined.

(** ** The console over a whole run *)

Section RunConsole.

Context (normalizeUrl : option Js.arg -> result string)
        (new_Endpoint : string -> result endpoint)
        (HttpRequest_headers : endpoint -> list (string * string))
        (addAuthorization :
           request -> option string -> credentials -> Z -> result request)
        (now : Z)
        (getStdin : promise string)
        (config_getCredentials : option string -> promise credentials)
        (SharedIniFileCredentials : string -> result credentials)
        (client_handleRequest : request -> promise response)
        (stdin_rejects_first : bool)
        (chalk : string -> string -> string)
        (json_reformat highlightAuto : string -> result string)
        (stack : js_error -> string)
        (cleanStack : string -> string).

Local Abbreviation main' :=
  (main normalizeUrl new_Endpoint HttpRequest_headers addAuthorization now getStdin
        config_getCredentials SharedIniFileCredentials client_handleRequest
        stdin_rejects_first).
Local Abbreviation console' :=
  (console_output chalk json_reformat highlightAuto stack cleanStack).
Local Abbreviation formatResponse' := (formatResponse chalk json_reformat highlightAuto).

Lemma formatHeaders_fn hs type c :
  In c (formatHeaders chalk hs type) -> console_fn c = type.
Proof. unfold formatHeaders. intros (k & <- & _)%in_map_iff. reflexivity. Qed.

Lemma formatResponse_fn a resp type c :
  In c (formatResponse' a resp type) -> console_fn c = type.
Proof.
  unfold formatResponse. intros [H|H]%in_app_iff.
  - destruct (has_flag "h" (argv_print a)); [|destruct H].
    destruct H as [<-|[H|H]%in_app_iff]; [reflexivity | exact (formatHeaders_fn _ _ _ H) |].
    destruct H as [<-|[]]. reflexivity.
  - destruct (has_flag "b" (argv_print a)); [|destruct H].
    destruct (_ =? _)%nat; [destruct H as [<-|[]]; reflexivity|].
    destruct (String.eqb (argv_pretty a) "none"); destruct H as [<-|[]]; reflexivity.
Qed.

Lemma echo_fn a r body c :
  In c (console' a (request_echo a r body ++ [Send r])) -> console_fn c = log.
Proof.
  unfold console_output. intros (e & He & Hc)%in_flat_map.
  unfold request_echo in He. rewrite !in_app_iff in He.
  assert (Hcase : e = EchoHead r \/ e = EchoBody body \/ e = Send r).
  { destruct (has_flag "H" (argv_print a)), (has_flag "B" (argv_print a));
      simpl in He; intuition. }
  destruct Hcase as [-> | [-> | ->]]; simpl in Hc.
  - destruct Hc as [<-|[H|H]%in_app_iff]; [reflexivity | exact (formatHeaders_fn _ _ _ H) |].
    destruct H as [<-|[]]. reflexivity.
  - destruct Hc as [<-|[<-|[]]]; reflexivity.
  - destruct Hc.
Qed.

Lemma handleError_fn a e c :
  In c (console' a (handleError e).1) -> console_fn c = error.
Proof.
  unfold console_output, handleError. simpl.
  destruct (err_response e) as [resp|]; cbn [flat_map render]; rewrite app_nil_r.
  - apply formatResponse_fn.
  - intros [<-|[]]. reflexivity.
Qed.

(** X14: what a run writes to the console, by method.  [console.error] is
    only written to by a run that exits with 1, [console.info] only by a
    run that completes, [console.log] carries the echo of the request, and
    [console.warn] is never written to. *)
Theorem console_methods_of_a_run a c :
  c ∈ console' a (main' a).1 ->
  match console_fn c with
  | log => exists r body, In c (console' a (request_echo a r body ++ [Send r]))
  | info => (main' a).2 = Completed
  | warn => False
  | error => (main' a).2 = Exit 1
  end.
Proof.
  intros Hc%list_elem_of_In. revert Hc. unfold main.
  destruct (startup normalizeUrl a) as [cfg|e0]; [|intros []].
  destruct (getCredentials _ _ a cfg) as [creds|e0]; [|intros []].
  rewrite chain_cases.
  assert (Herr : forall e0, In c (console' a (handleError e0).1) ->
            match console_fn c with
            | log => exists r body, In c (console' a (request_echo a r body ++ [Send r]))
            | info => (@Exit 1) = Completed
            | warn => False
            | error => Exit 1 = Exit 1
            end).
  { intros e0 H. rewrite (handleError_fn _ _ _ H). reflexivity. }
  destruct (promise_all stdin_rejects_first getStdin creds) as [[[body cr]|e0]|];
    [|cbn [fst snd]; exact (Herr e0)|intros []].
  destruct (createRequest _ _ _ _ cfg body cr) as [r|e0];
    [|cbn [fst snd]; exact (Herr e0)].
  assert (Hecho : forall status : exit,
            In c (console' a (request_echo a r body ++ [Send r])) ->
            match console_fn c with
            | log => exists r body, In c (console' a (request_echo a r body ++ [Send r]))
            | info => status = Completed
            | warn => False
            | error => status = Exit 1
            end).
  { intros status H. rewrite (echo_fn _ _ _ _ H). eauto. }
  destruct (client_handleRequest r) as [[res|e0]|]; cbn [fst snd].
  - destruct (handleResponse res) as [[m|e0]|]; cbn [fst snd].
    + unfold console_output. rewrite flat_map_app. intros [H|H]%in_app_iff.
      * apply Hecho, H.
      * simpl in H. rewrite app_nil_r in H.
        rewrite (formatResponse_fn _ _ _ _ H). reflexivity.
    + unfold console_output. rewrite flat_map_app. intros [H|H]%in_app_iff.
      * apply Hecho, H.
      * exact (Herr e0 H).
    + apply Hecho.
  - unfold console_output. rewrite flat_map_app. intros [H|H]%in_app_iff.
    + apply Hecho, H.
    + exact (Herr e0 H).
  - apply Hecho.
Qed.

End RunConsole.

Lemma unmatched_service_witness :
  Sample.main Sample.getCredentials
    (Argv "b" "none" (Some "eu-west-1") None None [Js.Str "https://localhost:9200/_search"])
  = ([], Uncaught type_error).
Proof.
  apply (unmatched_service_throws_type_error
           Sample.normalizeUrl Sample.new_Endpoint Sample.HttpRequest_headers
           Sample.addAuthorization 0 (Some (Return "")) Sample.getCredentials
           Sample.SharedIniFileCredentials Sample.client false
           (Argv "b" "none" (Some "eu-west-1") None None [Js.Str "https://localhost:9200/_search"])
           "GET" (Some (Js.Str "https://localhost:9200/_search")) []
           "https://localhost:9200/_search").
  - vm_compute. reflexivity.
  - reflexivity.
  - reflexivity.
  - intros H. apply service_re_matches in H. vm_compute in H.
    destruct H as [g H]. discriminate.
Defined.

Lemma console_methods_witness :
  (Sample.main Sample.getCredentials
     (Argv "Bb" "all" None None None
           [Js.Str "https://search-movies.eu-west-1.es.amazonaws.com/_cat"])).2
  = Completed.
Proof.
  apply (console_methods_of_a_run
           Sample.normalizeUrl Sample.new_Endpoint Sample.HttpRequest_headers
           Sample.addAuthorization 0 (Some (Return "")) Sample.getCredentials
           Sample.SharedIniFileCredentials Sample.client false
           SamplePrint.chalk SamplePrint.json_reformat SamplePrint.highlightAuto
           (fun _ => "") (fun s => s)
           (Argv "Bb" "all" None None None
                 [Js.Str "https://search-movies.eu-west-1.es.amazonaws.com/_cat"])
           (Console info ["*{}*"])).
  apply list_elem_of_In. vm_compute. auto 10.
Defined.

(** ** The echo of the request body *)




(** ** The constructed request *)

Lemma header_loop_strings headers (args : list string) :
  header_loop headers (Js.Str <$> args) = Return (foldl add_header headers args).
Proof.
  revert headers. induction args as [|a args IH]; intros headers; [reflexivity|].
  simpl. apply IH.
Qed.

Lemma header_loop_returns headers rest out :
  header_loop headers rest = Return out ->
  exists args, rest = Js.Str <$> args /\ out = foldl add_header headers args.
Proof.
  revert headers. induction rest as [|[s|t] rest IH]; intros headers H; simpl in H.
  - injection H as <-. exists []. split; reflexivity.
  - destruct (IH _ H) as (args & -> & ->). exists (s :: args). split; reflexivity.
  - discriminate.
Qed.

Lemma header_loop_number headers (before : list string) text after :
  header_loop headers ((Js.Str <$> before) ++ Js.Num text :: after) = Throw type_error.
Proof.
  revert headers. induction before as [|a before IH]; intros headers; [reflexivity|].
  simpl. apply IH.
Qed.

Lemma signer_headers_not_lowercase_only k :
  k ∈ signer_headers -> k = "X-Amz-Date" \/ k = "x-amz-security-token" \/ k = "Authorization".
Proof.
  unfold signer_headers. rewrite !elem_of_cons, elem_of_nil. tauto.
Qed.

Section Constructed.

Context (new_Endpoint : string -> result endpoint)
        (HttpRequest_headers : endpoint -> list (string * string))
        (addAuthorization :
           request -> option string -> credentials -> Z -> result request)
        (now : Z).

Local Abbreviation createRequest' :=
  (createRequest new_Endpoint HttpRequest_headers addAuthorization now).

(** What [createRequest] returns is what the signer made of the request
    with the mapping of lines 185-189. *)
Lemma createRequest_returns cfg body creds r :
  createRequest' cfg body creds = Return r ->
  exists endpoint,
    new_Endpoint (cfg_url cfg) = Return endpoint /\
    addAuthorization
      (Request endpoint (cfg_region cfg) (cfg_method cfg) body
         (request_headers (HttpRequest_headers endpoint) (cfg_headers cfg)
                          (ep_host endpoint)))
      (cfg_service cfg) creds now = Return r.
Proof.
  unfold createRequest. destruct (new_Endpoint (cfg_url cfg)) as [endpoint|e]; simpl.
  - intros H. exists endpoint. split; [reflexivity | exact H].
  - discriminate.
Qed.

Lemma constructed_headers cfg body creds r rest :
  signer_adds_only addAuthorization ->
  header_loop ∅ rest = Return (cfg_headers cfg) ->
  createRequest' cfg body creds = Return r ->
  exists args endpoint,
    rest = Js.Str <$> args /\ cfg_headers cfg = parse_headers args /\
    new_Endpoint (cfg_url cfg) = Return endpoint /\
    forall k, k ∉ signer_headers ->
      req_headers r !! k
        = request_headers (HttpRequest_headers endpoint) (parse_headers args)
                          (ep_host endpoint) !! k.
Proof.
  intros Hsign (args & -> & Hargs)%header_loop_returns
         (endpoint & Hep & Hr)%createRequest_returns.
  exists args, endpoint. split_and!; try assumption; [reflexivity|].
  intros k Hk. rewrite (Hsign _ _ _ _ _ Hr k Hk). simpl. rewrite Hargs. reflexivity.
Qed.

End Constructed.

Lemma sample_signer_adds_only : signer_adds_only SampleSdk.addAuthorization.
Proof.
  intros request service creds now r [= <-] k Hk. simpl.
  unfold signer_headers in Hk. rewrite !not_elem_of_cons in Hk.
  destruct Hk as (? & ? & ? & _).
  rewrite !lookup_insert_ne by congruence. reflexivity.
Qed.

(** C6 as stated fails: the request that [createRequest] returns has been
    through the signer, which writes [Authorization] and [X-Amz-Date]
    under capitalised names. *)
Lemma signed_request_has_capitalised_names :
  exists r,
    SampleSdk.created = Return r /\
    is_Some (req_headers r !! "Authorization") /\
    is_Some (req_headers r !! "X-Amz-Date") /\
    ~ lowercase "Authorization" /\ ~ lowercase "X-Amz-Date".
Proof.
  eexists. split; [vm_compute; reflexivity|].
  split_and!; try (vm_compute; eauto; fail);
    unfold lowercase; vm_compute; discriminate.
Qed.

(** C6 (as the code has it): in the request that [createRequest] returns,
    every header name is lowercase but those the signer writes
    ([X-Amz-Date], [Authorization]), and every name occurs once; among the
    header arguments the value kept under a name is that of the last
    argument with that name, and it reaches the request unless the name is
    [host] or one of the signer's; the [host] entry is the endpoint's. *)
Theorem signed_request_header_names
    new_Endpoint HttpRequest_headers addAuthorization now cfg body creds r rest :
  signer_adds_only addAuthorization ->
  header_loop ∅ rest = Return (cfg_headers cfg) ->
  createRequest new_Endpoint HttpRequest_headers addAuthorization now cfg body creds
    = Return r ->
  exists args endpoint,
    rest = Js.Str <$> args /\ new_Endpoint (cfg_url cfg) = Return endpoint /\
    (forall k, is_Some (req_headers r !! k) -> lowercase k \/ k ∈ signer_headers) /\
    NoDup (map_to_list (req_headers r)).*1 /\
    (forall k v, parse_headers args !! k = Some v ->
       exists before arg after,
         args = before ++ arg :: after /\ header_entry arg = (k, v) /\
         Forall (fun a => (header_entry a).1 <> k) after) /\
    (forall before arg after,
       args = before ++ arg :: after ->
       (header_entry arg).1 <> "__proto__" ->
       Forall (fun a => (header_entry a).1 <> (header_entry arg).1) after ->
       parse_headers args !! (header_entry arg).1 = Some (header_entry arg).2) /\
    (forall k v, parse_headers args !! k = Some v ->
       k <> "host" -> k ∉ signer_headers -> req_headers r !! k = Some v) /\
    req_headers r !! "host" = Some (ep_host endpoint).
Proof.
  intros Hsign Hloop Hreq.
  destruct (constructed_headers _ _ _ _ _ _ _ _ _ Hsign Hloop Hreq)
    as (args & endpoint & -> & _ & Hep & Hr).
  destruct (built_headers_names (HttpRequest_headers endpoint) args (ep_host endpoint))
    as (Hlow & _ & Horigin & Hlast & _ & _).
  exists args, endpoint. split_and!; try assumption; try reflexivity.
  - intros k Hk. destruct (decide (k ∈ signer_headers)) as [Hin|Hout]; [right; exact Hin|].
    left. rewrite (Hr k Hout) in Hk. destruct Hk as [v Hv]. exact (Hlow k v Hv).
  - apply NoDup_fst_map_to_list.
  - intros k v Hv Hhost Hout. rewrite (Hr k Hout), lookup_request_headers.
    destruct (decide (k = "__proto__")) as [->|_].
    { rewrite parse_headers_no_proto in Hv. discriminate. }
    rewrite decide_False by exact Hhost. rewrite Hv. reflexivity.
  - rewrite Hr, lookup_request_headers; [reflexivity|].
    unfold signer_headers. rewrite !not_elem_of_cons. split_and!; try discriminate.
    apply not_elem_of_nil.
Qed.

Lemma signed_request_header_names_witness :
  match SampleSdk.created with
  | Return r =>
      req_headers r !! "accept" = Some "*/*" /\
      req_headers r !! "host" = Some "search-movies.us-east-1.es.amazonaws.com" /\
      (lowercase "Authorization" \/ "Authorization" ∈ signer_headers)
  | Throw _ => False
  end.
Proof.
  destruct SampleSdk.created as [r|e] eqn:E; [|vm_compute in E; discriminate].
  destruct (signed_request_header_names _ _ _ _ SampleSdk.config _ _ _
              (Js.Str <$> ["Accept:*/*"; "User-Agent:curl/8.0"])
              sample_signer_adds_only
              (header_loop_strings ∅ ["Accept:*/*"; "User-Agent:curl/8.0"]) E)
    as (args & endpoint & Hargs & Hep & Hlow & _ & _ & _ & Hcaller & Hhost).
  injection Hep as <-. split_and!.
  - apply Hcaller.
    + assert (args = ["Accept:*/*"; "User-Agent:curl/8.0"]) as ->.
      { destruct args as [|a [|b [|c args]]]; try discriminate Hargs.
        injection Hargs as -> ->. reflexivity. }
      vm_compute. reflexivity.
    + discriminate.
    + unfold signer_headers. rewrite !not_elem_of_cons. split_and!; try discriminate.
      apply not_elem_of_nil.
  - exact Hhost.
  - apply Hlow. injection E as <-. vm_compute. eauto.
Defined.



(** C8, where the code departs from it: a first argument that yargs reads
    as a number and whose text is a run of word characters (such as [123])
    passes the pattern, and [toUpperCase] on the number throws; the script
    ends on that uncaught [TypeError].  For a first argument that is a
    string the method is the upper-case token of the claim. *)
Theorem numeric_first_argument_throws :
  (forall text rest,
     parse_method_url (Js.Num text :: rest)
       = if word_token text then Throw type_error
         else Return ("GET", Some (Js.Num text), rest)) /\
  parse_method_url [Js.Num "123"; Js.Str "https://iam.amazonaws.com"]
    = Throw type_error /\
  Sample.main Sample.getCredentials
    (Argv "b" "none" (Some "us-east-1") None None
          [Js.Num "123"; Js.Str "https://iam.amazonaws.com"])
    = ([], Uncaught type_error) /\
  (forall first rest,
     parse_method_url (Js.Str first :: rest)
       = (if word_token first
          then Return (Js.toUpperCase first, head rest, tail rest)
          else Return ("GET", Some (Js.Str first), rest)) /\
     uppercase_token (if word_token first then Js.toUpperCase first else "GET")).
Proof.
  split_and!.
  - apply method_of_number_argument.
  - vm_compute. reflexivity.
  - vm_compute. reflexivity.
  - apply method_of_string_argument.
Qed.

(** C9, where the code departs from it: a header argument that yargs reads
    as a number (such as [123], which has no colon) has no [indexOf]; the
    loop throws and the script ends on that uncaught [TypeError].  A string
    argument without a colon is entered under the empty name, as the claim
    says. *)
Theorem numeric_header_argument_throws :
  (forall headers (before : list string) text after,
     header_loop headers ((Js.Str <$> before) ++ Js.Num text :: after)
       = Throw type_error) /\
  Sample.main Sample.getCredentials
    (Argv "b" "none" (Some "us-east-1") None None
          [Js.Str "https://iam.amazonaws.com"; Js.Num "123"])
    = ([], Uncaught type_error) /\
  (forall (before : list string) arg after,
     free_of ":" arg ->
     Forall (fun a => (header_entry a).1 <> "") after ->
     exists headers,
       header_loop ∅ (Js.Str <$> (before ++ arg :: after)) = Return headers /\
       headers !! "" = Some arg).
Proof.
  split_and!.
  - apply header_loop_number.
  - vm_compute. reflexivity.
  - intros before arg after Hfree Hafter. eexists. split; [apply header_loop_strings|].
    exact (proj2 (string_without_colon before arg after Hfree Hafter)).
Qed.

(** X10: [formatResponse] prints, when [h] is among the print flags, the
    status line (status and message, bold, in the colour of the method),
    then the headers as [formatHeaders] prints them, one call each, then an
    empty call; and, when [b] is among them, one more call of the same
    method for the body.  With neither flag it prints nothing. *)
Theorem response_print_layout chalk json_reformat highlightAuto a resp type :
  exists body_call,
    formatResponse chalk json_reformat highlightAuto a resp type
      = (if has_flag "h" (argv_print a)
         then Console type
                [chalk (color type)
                   (chalk "bold"
                      (Lib.number_to_string (statusCode resp) +:+ " "
                       +:+ statusMessage resp))]
              :: formatHeaders chalk (resp_headers resp) type ++ [Console type []]
         else [])
        ++ (if has_flag "b" (argv_print a) then [body_call] else []) /\
    console_fn body_call = type /\
    length (formatHeaders chalk (resp_headers resp) type) = size (resp_headers resp).
Proof.
  unfold formatResponse.
  destruct (has_flag "b" (argv_print a)).
  - destruct (_ =? _)%nat; [|destruct (String.eqb (argv_pretty a) "none")];
      eexists; (split_and!; [reflexivity | reflexivity | apply formatHeaders_length]).
  - exists (Console type []).
    split_and!; [reflexivity | reflexivity | apply formatHeaders_length].
Qed.
